(** * xrt::task — type-erased tasks, the work queue, events and the worker loop

    Shallow embedding of [task.h] (namespace [xrt::task]).

    The header is written against [std::packaged_task], [std::future],
    [std::unique_ptr], [std::vector], [std::mutex] and
    [std::condition_variable].  Their behaviour is part of the language and is
    modelled here as the C++ standard gives it:

    - the shared state behind a [packaged_task]/[future] pair is a cell of a
      heap, addressed by a number, so that the task sitting in the queue and
      the event held by the submitter alias the same cell;
    - every member function of [queue] runs under [m_mutex], hence atomically;
      a call that would sleep on [m_work] is a call that does not return in
      the current state;
    - dereferencing a null [unique_ptr] and calling [get] on a future without
      shared state are undefined behaviour, kept as an outcome of their own.

    The submitted callables are opaque to the header.  They are modelled as
    state transformers over a host state [U] that either return a value of the
    result universe [V] or throw. *)

From Stdlib Require Import List.
From stdpp Require Import base option list.

Set Default Proof Using "Type".

Section TaskCore.

Variables (U V X : Type).

(** ** The standard library pieces *)

(** [std::future_errc]. *)
Inductive future_errc :=
  | broken_promise
  | future_already_retrieved
  | promise_already_satisfied
  | no_state.

(** Exceptions: [std::future_error] with its code, or anything else. *)
Inductive exn :=
  | future_error (c : future_errc)
  | other (x : X).

(** What one call of a bound callable does. *)
Inductive outcome :=
  | returns (v : V)
  | throws (e : exn).

(** A zero-argument callable, as produced by [std::bind]. *)
Definition callable : Type := U -> outcome * U.

(** The shared state of a promise/future pair: not ready, or ready with a
    value or with an exception. *)
Inductive slot :=
  | pending
  | ready_value (v : V)
  | ready_exception (e : exn).

(** The heap of shared states. *)
Local Abbreviation heap := (list slot).

Definition store (o : outcome) : slot :=
  match o with
  | returns v => ready_value v
  | throws e => ready_exception e
  end.

(** How a call ends: it returns, an exception leaves it, or its behaviour is
    undefined. *)
Inductive completion (A : Type) :=
  | completes (a : A)
  | propagates (e : exn)
  | undefined.

Arguments completes {A} a.
Arguments propagates {A} e.
Arguments undefined {A}.

(** A call that may sleep: either it cannot return in the current state, or
    it ends as above. *)
Inductive waited (A : Type) :=
  | would_block
  | got (c : completion A).

Arguments would_block {A}.
Arguments got {A} c.

(** [std::packaged_task<RT()>]: the stored callable and the shared state it
    owns ([None] once moved from). *)
Record packaged_task := {
  stored : callable;
  pt_state : option nat
}.

(** [packaged_task::operator()].  Without shared state it throws [no_state];
    when the stored task was already invoked it throws
    [promise_already_satisfied] and the callable is not run again; otherwise
    the callable runs and its value or exception is stored in the shared
    state, which becomes ready. *)
Definition pt_call (p : packaged_task) (s : heap * U) : completion (heap * U) :=
  match pt_state p with
  | None => propagates (future_error no_state)
  | Some id =>
      match s.1 !! id with
      | None => propagates (future_error no_state)
      | Some pending =>
          let (o, u') := stored p s.2 in
          completes (<[id := store o]> s.1, u')
      | Some _ => propagates (future_error promise_already_satisfied)
      end
  end.

(** [~packaged_task]: abandons the shared state; a state that is not ready
    gets the exception [future_error(broken_promise)] and becomes ready. *)
Definition pt_destroy (p : packaged_task) (h : heap) : heap :=
  match pt_state p with
  | None => h
  | Some id =>
      match h !! id with
      | Some pending => <[id := ready_exception (future_error broken_promise)]> h
      | _ => h
      end
  end.

(** [future::get]: sleeps until the shared state is ready, then hands out the
    value or rethrows the exception, and drops the shared state.  Undefined
    when the future has no shared state. *)
Definition future_get (f : option nat) (h : heap) : waited V * option nat :=
  match f with
  | None => (got undefined, None)
  | Some id =>
      match h !! id with
      | None => (got undefined, f)
      | Some pending => (would_block, f)
      | Some (ready_value v) => (got (completes v), None)
      | Some (ready_exception e) => (got (propagates e), None)
      end
  end.

(** [future::wait_for(0s) == future_status::ready]. *)
Definition future_is_ready (f : option nat) (h : heap) : completion bool :=
  match f with
  | None => undefined
  | Some id =>
      match h !! id with
      | None => undefined
      | Some pending => completes false
      | Some _ => completes true
      end
  end.

(** ** class task *)

(** [content] is the [unique_ptr<task_iholder>]; the only holder is
    [task_holder<RT>], whose single member is [held]. *)
Record task := {
  content : option packaged_task
}.

(** [task()] *)
Definition task_default : task := {| content := None |}.

(** [task(task&& rhs)]: the new object and what is left of [rhs]. *)
Definition task_move (rhs : task) : task * task :=
  ({| content := content rhs |}, {| content := None |}).

(** [task(std::packaged_task<RT()>&& t)]: the new object and the moved-from
    packaged task. *)
Definition task_of_packaged (t : packaged_task) : task * packaged_task :=
  ({| content := Some {| stored := stored t; pt_state := pt_state t |} |},
   {| stored := stored t; pt_state := None |}).

(** [~task]: deletes the holder, which destroys [held]. *)
Definition task_destroy (t : task) (h : heap) : heap :=
  match content t with
  | None => h
  | Some p => pt_destroy p h
  end.

(** [task::operator=(task&& rhs)] for two distinct objects: [unique_ptr]
    move assignment deletes what [lhs] owned and takes over what [rhs] owned.
    (Assigning an object to itself keeps the holder; that call is not
    represented.) *)
Definition task_assign (lhs rhs : task) (h : heap) : task * task * heap :=
  ({| content := content rhs |}, {| content := None |}, task_destroy lhs h).

(** [task::valid] *)
Definition valid (t : task) : bool :=
  match content t with
  | None => false
  | Some _ => true
  end.

(** [task::execute]: [content->execute()], which is [held()].  There is no
    null check: on an empty handle the call dereferences a null pointer. *)
Definition execute (t : task) (s : heap * U) : completion (heap * U) :=
  match content t with
  | None => undefined
  | Some p => pt_call p s
  end.

(** [task::operator()] *)
Definition task_call (t : task) (s : heap * U) : completion (heap * U) :=
  execute t s.

(** ** class queue *)

Record queue := {
  m_tasks : list task;
  m_stop : bool
}.

(** [queue()] *)
Definition queue_new : queue := {| m_tasks := []; m_stop := false |}.

(** [queue::addWork]: [push_back] under the lock. *)
Definition addWork (t : task) (q : queue) : queue :=
  {| m_tasks := m_tasks q ++ [(task_move t).1]; m_stop := m_stop q |}.

(** [vector::back]; only reached on a non-empty vector. *)
Definition back (v : list task) : task := default task_default (last v).

(** [vector::pop_back] *)
Definition pop_back (v : list task) : list task := removelast v.

Definition empty (v : list task) : bool :=
  match v with
  | [] => true
  | _ => false
  end.

(** [queue::getWork].  [None]: the caller sleeps in [m_work.wait], the loop
    condition [!m_stop && m_tasks.empty()] holds.  Otherwise the handle that
    is returned and the queue that is left; the local handle is empty when it
    is assigned to, so the assignment deletes nothing. *)
Definition getWork (q : queue) : option (task * queue) :=
  if negb (m_stop q) && empty (m_tasks q) then None
  else
    if negb (m_stop q) then
      Some ((task_move (back (m_tasks q))).1,
            {| m_tasks := pop_back (m_tasks q); m_stop := m_stop q |})
    else Some (task_default, q).

(** [queue::stop] *)
Definition stop (q : queue) : queue :=
  {| m_tasks := m_tasks q; m_stop := true |}.

(** ** class event *)

Record event := {
  m_future : option nat
}.

(** [event::get]: [m_future.get()] on the mutable future; the result and the
    event afterwards. *)
Definition get (e : event) (h : heap) : waited V * event :=
  let (r, f) := future_get (m_future e) h in (r, {| m_future := f |}).

(** [event::wait] is written as [m_future.get()] as well. *)
Definition wait (e : event) (h : heap) : waited V * event :=
  let (r, f) := future_get (m_future e) h in (r, {| m_future := f |}).

(** [event::ready] *)
Definition ready (e : event) (h : heap) : completion bool :=
  future_is_ready (m_future e) h.

(** ** createF, createM *)

(** [std::bind(f, args...)]: the argument pack is one value of type [A]. *)
Definition bind {A : Type} (f : A -> callable) (args : A) : callable := f args.

(** [std::packaged_task<RT()> t(fn)]: a new shared state is allocated. *)
Definition pt_new (fn : callable) (h : heap) : packaged_task * heap :=
  ({| stored := fn; pt_state := Some (length h) |}, h ++ [pending]).

(** [packaged_task::get_future] of a task that owns a shared state. *)
Definition get_future (t : packaged_task) : option nat := pt_state t.

(** [createF(q, f, args...)]: the event, the queue and the heap afterwards.
    The temporaries left behind by the moves own nothing. *)
Definition createF {A : Type} (q : queue) (h : heap) (f : A -> callable) (args : A)
  : event * queue * heap :=
  let (t, h') := pt_new (bind f args) h in
  let e := {| m_future := get_future t |} in
  (e, addWork (task_of_packaged t).1 q, h').

(** [createM(q, f, c, args...)]: the member function [f] is bound to
    [std::ref(c)]; [C] is the type of such references, the object itself
    lives in the host state and is read when the task runs. *)
Definition createM {C A : Type} (q : queue) (h : heap) (f : C -> A -> callable)
  (c : C) (args : A) : event * queue * heap :=
  let (t, h') := pt_new (bind (f c) args) h in
  let e := {| m_future := get_future t |} in
  (e, addWork (task_of_packaged t).1 q, h').

(** ** worker *)

Record world := {
  w_queue : queue;
  w_heap : heap;
  w_user : U
}.

(** How a run of the loop ends: [break] was taken; the thread sleeps in
    [getWork]; an exception left [t()]; undefined behaviour; or the fuel of
    the model ran out. *)
Inductive ending :=
  | finished
  | sleeping
  | escaped (e : exn)
  | undefined_behaviour
  | out_of_fuel.

(** A run: how it ended, the handles [getWork] returned and the handles on
    which [t()] was called, both in order, and the state it left. *)
Record run := {
  ended : ending;
  taken : list task;
  executed : list task;
  final : world
}.

Definition ran (t : task) (r : run) : run :=
  {| ended := ended r; taken := t :: taken r; executed := t :: executed r;
     final := final r |}.

(** [worker(q)], one thread on its own.  Each turn of [while (true)] takes a
    handle, leaves on an invalid one, calls it otherwise; the handle is
    destroyed at the end of the turn. *)
Fixpoint worker (fuel : nat) (w : world) : run :=
  match fuel with
  | 0 => {| ended := out_of_fuel; taken := []; executed := []; final := w |}
  | S n =>
      match getWork (w_queue w) with
      | None => {| ended := sleeping; taken := []; executed := []; final := w |}
      | Some (t, q') =>
          if negb (valid t) then
            {| ended := finished; taken := [t]; executed := [];
               final := {| w_queue := q';
                           w_heap := task_destroy t (w_heap w);
                           w_user := w_user w |} |}
          else
            match task_call t (w_heap w, w_user w) with
            | completes (h', u') =>
                ran t (worker n {| w_queue := q';
                                   w_heap := task_destroy t h';
                                   w_user := u' |})
            | propagates e =>
                {| ended := escaped e; taken := [t]; executed := [t];
                   final := {| w_queue := q'; w_heap := w_heap w;
                               w_user := w_user w |} |}
            | undefined =>
                {| ended := undefined_behaviour; taken := [t]; executed := [t];
                   final := {| w_queue := q'; w_heap := w_heap w;
                               w_user := w_user w |} |}
            end
      end
  end.

(** The calls the loop makes on a list of handles, one after the other:
    [t()], after which the handle is destroyed; an exception, or undefined
    behaviour, ends the sequence. *)
Fixpoint call_all (ts : list task) (s : heap * U) : completion (heap * U) :=
  match ts with
  | [] => completes s
  | t :: ts' =>
      match task_call t s with
      | completes (h', u') => call_all ts' (task_destroy t h', u')
      | propagates e => propagates e
      | undefined => undefined
      end
  end.

(** ** Sequences of queue operations *)

(** The calls threads make on a shared queue, in the order in which they hold
    the lock. *)
Inductive op :=
  | op_addWork (t : task)
  | op_getWork
  | op_stop.

(** One call: the queue afterwards and, for a [getWork] that returns, the
    handle it returned.  A [getWork] that would sleep leaves the queue as it
    is. *)
Definition apply_op (q : queue) (o : op) : queue * option task :=
  match o with
  | op_addWork t => (addWork t q, None)
  | op_getWork =>
      match getWork q with
      | None => (q, None)
      | Some (t, q') => (q', Some t)
      end
  | op_stop => (stop q, None)
  end.

(** A sequence of calls: the queue at the end and the handles handed out. *)
Fixpoint run_ops (q : queue) (os : list op) : queue * list task :=
  match os with
  | [] => (q, [])
  | o :: os' =>
      let (q', r) := apply_op q o in
      let (q'', rs) := run_ops q' os' in
      (q'', match r with Some t => t :: rs | None => rs end)
  end.

(** The handles a sequence of calls adds. *)
Fixpoint added (os : list op) : list task :=
  match os with
  | [] => []
  | op_addWork t :: os' => t :: added os'
  | _ :: os' => added os'
  end.

Definition is_stop (o : op) : bool :=
  match o with
  | op_stop => true
  | _ => false
  end.

(** [~queue]: the vector destroys the handles it still holds. *)
Definition queue_destroy (q : queue) (h : heap) : heap :=
  fold_left (fun h' t => task_destroy t h') (m_tasks q) h.

(** ** Notions used in the statements *)

(** The shared state a handle owns through its holder, if any. *)
Definition state_of (t : task) : option nat :=
  match content t with
  | None => None
  | Some p => pt_state p
  end.

Definition is_pending (h : heap) (id : nat) : bool :=
  match h !! id with
  | Some pending => true
  | _ => false
  end.

(** The handle owns a callable that has not been invoked: it has a holder
    whose shared state is not ready. *)
Definition owns_unexecuted (t : task) (h : heap) : bool :=
  match state_of t with
  | None => false
  | Some id => is_pending h id
  end.

(** The handle and the event are the two ends of one shared state. *)
Definition paired (t : task) (e : event) : bool :=
  match state_of t, m_future e with
  | Some i, Some j => Nat.eqb i j
  | _, _ => false
  end.

(** Every handle of the list owns an unexecuted callable, and no two share a
    state. *)
Fixpoint runnable (h : heap) (ts : list task) : bool :=
  match ts with
  | [] => true
  | t :: ts' =>
      owns_unexecuted t h
      && negb (existsb (fun t' => paired t' {| m_future := state_of t |}) ts')
      && runnable h ts'
  end.

(** A shared state that is ready stays as it is: [h'] is a later heap. *)
Definition evolves (h h' : heap) : Prop :=
  forall (i : nat) (s : slot), h !! i = Some s -> s <> pending -> h' !! i = Some s.

End TaskCore.

Abbreviation heap V X := (list (slot V X)).

Arguments future_error {X} c.
Arguments other {X} x.
Arguments returns {V X} v.
Arguments throws {V X} e.
Arguments pending {V X}.
Arguments ready_value {V X} v.
Arguments ready_exception {V X} e.
Arguments store {V X} o.
Arguments completes {X A} a.
Arguments propagates {X A} e.
Arguments undefined {X A}.
Arguments would_block {X A}.
Arguments got {X A} c.
Arguments Build_packaged_task {U V X} stored pt_state.
Arguments stored {U V X} p.
Arguments pt_state {U V X} p.
Arguments pt_call {U V X} p s.
Arguments pt_destroy {U V X} p h.
Arguments future_get {V X} f h.
Arguments future_is_ready {V X} f h.
Arguments Build_task {U V X} content.
Arguments content {U V X} t.
Arguments task_default {U V X}.
Arguments task_move {U V X} rhs.
Arguments task_of_packaged {U V X} t.
Arguments task_destroy {U V X} t h.
Arguments task_assign {U V X} lhs rhs h.
Arguments valid {U V X} t.
Arguments execute {U V X} t s.
Arguments task_call {U V X} t s.
Arguments Build_queue {U V X} m_tasks m_stop.
Arguments m_tasks {U V X} q.
Arguments m_stop {U V X} q.
Arguments queue_new {U V X}.
Arguments addWork {U V X} t q.
Arguments back {U V X} v.
Arguments pop_back {U V X} v.
Arguments empty {U V X} v.
Arguments getWork {U V X} q.
Arguments stop {U V X} q.
Arguments get {V X} e h.
Arguments wait {V X} e h.
Arguments ready {V X} e h.
Arguments bind {U V X A} f args.
Arguments pt_new {U V X} fn h.
Arguments get_future {U V X} t.
Arguments createF {U V X A} q h f args.
Arguments createM {U V X C A} q h f c args.
Arguments Build_world {U V X} w_queue w_heap w_user.
Arguments w_queue {U V X} w.
Arguments w_heap {U V X} w.
Arguments w_user {U V X} w.
Arguments finished {X}.
Arguments sleeping {X}.
Arguments escaped {X} e.
Arguments undefined_behaviour {X}.
Arguments out_of_fuel {X}.
Arguments Build_run {U V X} ended taken executed final.
Arguments ended {U V X} r.
Arguments taken {U V X} r.
Arguments executed {U V X} r.
Arguments final {U V X} r.
Arguments ran {U V X} t r.
Arguments worker {U V X} fuel w.
Arguments call_all {U V X} ts s.
Arguments op_addWork {U V X} t.
Arguments op_getWork {U V X}.
Arguments op_stop {U V X}.
Arguments apply_op {U V X} q o.
Arguments run_ops {U V X} q os.
Arguments added {U V X} os.
Arguments queue_destroy {U V X} q h.
Arguments state_of {U V X} t.
Arguments is_pending {V X} h id.
Arguments owns_unexecuted {U V X} t h.
Arguments paired {U V X} t e.
Arguments runnable {U V X} h ts.
Arguments evolves {V X} h h'.
Arguments is_stop {U V X} o.

(** ** Sample callables

    The host state is an execution-order log; results and error codes are
    numbers. *)

Definition log : Type := list nat.

(** [f(x) = x*x] *)
Definition square (x : nat) : callable log nat nat :=
  fun u => (returns (x * x), u).

(** Appends its tag to the log and returns it. *)
Definition note (k : nat) : callable log nat nat :=
  fun u => (returns k, u ++ [k]).

(** Throws the error code [x]. *)
Definition failing (x : nat) : callable log nat nat :=
  fun u => (throws (other x), u).

(** A member function: [c] names the object, here a position in the log, and
    the call adds [n] to what is stored there. *)
Definition bump (c : nat) (n : nat) : callable log nat nat :=
  fun u => (returns (default 0 (u !! c) + n), <[c := default 0 (u !! c) + n]> u).

(** Submits [f x] for [x = k-1, ..., 0], collecting the events. *)
Fixpoint submit_all (f : nat -> callable log nat nat) (k : nat)
  (q : queue log nat nat) (h : heap nat nat)
  : list event * queue log nat nat * heap nat nat :=
  match k with
  | 0 => ([], q, h)
  | S k' =>
      let '(e, q1, h1) := createF q h f k' in
      let '(es, q2, h2) := submit_all f k' q1 h1 in
      (e :: es, q2, h2)
  end.

(** A submission on a new queue: [createF(q, square, 3)]. *)
Definition sample_submission : event * queue log nat nat * heap nat nat :=
  createF queue_new [] square 3.

Definition sample_event : event := sample_submission.1.1.

Definition sample_queue : queue log nat nat := sample_submission.1.2.

Definition sample_heap : heap nat nat := sample_submission.2.

(** The handle that submission left on the queue. *)
Definition sample_task : task log nat nat := back (m_tasks sample_queue).

(** A handle built from a packaged task that was moved from before:
    [std::packaged_task<int()> pt(...); task a(std::move(pt));
    task b(std::move(pt));] gives [b], valid, with a packaged task that has no
    shared state. *)
Definition nostate_task : task log nat nat :=
  (task_of_packaged (task_of_packaged (pt_new (square 3) []).1).2).1.

(** Three submissions [note 1], [note 2], [note 3], in that order. *)
Definition three_notes : list event * queue log nat nat * heap nat nat :=
  let '(e1, q1, h1) := createF queue_new [] note 1 in
  let '(e2, q2, h2) := createF q1 h1 note 2 in
  let '(e3, q3, h3) := createF q2 h2 note 3 in
  ([e1; e2; e3], q3, h3).

(** Reads every event of a list. *)
Definition get_all (es : list event) (h : heap nat nat) : list (waited nat nat) :=
  map (fun e => (get e h).1) es.

(** * Properties *)

Section Properties.

Context {U V X : Type}.

Implicit Types (t : task U V X) (p : packaged_task U V X) (q : queue U V X).
Implicit Types (h : heap V X) (u : U) (e : event) (w : world U V X).
Implicit Types (ts : list (task U V X)) (os : list (op U V X)).

(** ** Records and moves *)

Lemma task_move_fst t : (task_move t).1 = t.
Proof. by destruct t. Qed.

Lemma queue_eta q : {| m_tasks := m_tasks q; m_stop := m_stop q |} = q.
Proof. by destruct q. Qed.

Lemma world_eta w :
  {| w_queue := w_queue w; w_heap := w_heap w; w_user := w_user w |} = w.
Proof. by destruct w. Qed.

Lemma store_ready (o : outcome V X) : store o <> pending.
Proof. by destruct o. Qed.

Lemma valid_state_of t i : state_of t = Some i -> valid t = true.
Proof. unfold state_of, valid. by destruct (content t). Qed.

(** ** The queue, one call at a time *)

Lemma addWork_tasks t q : m_tasks (addWork t q) = m_tasks q ++ [t].
Proof. unfold addWork. cbn [m_tasks]. by rewrite task_move_fst. Qed.

Lemma addWork_stop t q : m_stop (addWork t q) = m_stop q.
Proof. reflexivity. Qed.

Lemma getWork_stopped q : m_stop q = true -> getWork q = Some (task_default, q).
Proof. intros Hs. unfold getWork. by rewrite Hs. Qed.

Lemma getWork_sleeps q : m_stop q = false -> m_tasks q = [] -> getWork q = None.
Proof. intros Hs Ht. unfold getWork. by rewrite Hs, Ht. Qed.

Lemma empty_snoc ts t : empty (ts ++ [t]) = false.
Proof. by destruct ts. Qed.

Lemma getWork_snoc ts t :
  getWork {| m_tasks := ts ++ [t]; m_stop := false |}
  = Some (t, {| m_tasks := ts; m_stop := false |}).
Proof.
  unfold getWork, back, pop_back. cbn [m_tasks m_stop negb andb].
  rewrite empty_snoc, last_snoc, removelast_last. cbn [default].
  by rewrite task_move_fst.
Qed.

Lemma getWork_addWork t q :
  m_stop q = false -> getWork (addWork t q) = Some (t, q).
Proof.
  intros Hs. destruct q as [ts b]. simpl in Hs. subst b.
  unfold addWork. cbn [m_tasks m_stop]. rewrite task_move_fst.
  apply getWork_snoc.
Qed.

Lemma stop_stop q : stop (stop q) = stop q.
Proof. reflexivity. Qed.

Lemma apply_op_stop q (o : op U V X) :
  m_stop q = true -> m_stop (apply_op q o).1 = true.
Proof.
  intros Hs. destruct o as [t| |]; simpl; try done.
  by rewrite (getWork_stopped q Hs).
Qed.

Lemma run_ops_stop os : forall q, m_stop q = true -> m_stop (run_ops q os).1 = true.
Proof.
  induction os as [|o os IH]; intros q Hs; simpl; [done|].
  pose proof (apply_op_stop q o Hs) as Ho.
  destruct (apply_op q o) as [q' r]. simpl in Ho.
  specialize (IH q' Ho). by destruct (run_ops q' os).
Qed.

(** After shutdown a sequence of calls hands out empty handles only and
    leaves in the queue what was there, followed by what was added. *)
Lemma run_ops_stopped os : forall q,
  m_stop q = true ->
  Forall (fun t => valid t = false) (run_ops q os).2
  /\ m_tasks (run_ops q os).1 = m_tasks q ++ added os.
Proof.
  induction os as [|o os IH]; intros q Hs; simpl.
  - split; [constructor | by rewrite app_nil_r].
  - pose proof (apply_op_stop q o Hs) as Ho.
    destruct o as [t| |]; cbn [apply_op added fst snd] in *.
    + destruct (IH (addWork t q) Ho) as [Hv Ht].
      destruct (run_ops (addWork t q) os) as [q2 rs]. cbn [fst snd] in *.
      split; [done|]. by rewrite Ht, addWork_tasks, <- app_assoc.
    + rewrite (getWork_stopped q Hs) in *. cbn [fst snd] in *.
      destruct (IH q Hs) as [Hv Ht].
      destruct (run_ops q os) as [q2 rs]. simpl in *.
      split; [by constructor | done].
    + destruct (IH (stop q) Ho) as [Hv Ht].
      destruct (run_ops (stop q) os) as [q2 rs]. simpl in *. done.
Qed.
(** ** Shared states are written once *)

Lemma evolves_refl h : evolves h h.
Proof. by intros i s Hi _. Qed.

Lemma evolves_trans h1 h2 h3 : evolves h1 h2 -> evolves h2 h3 -> evolves h1 h3.
Proof. intros H12 H23 i s Hi Hs. apply H23; [|done]. by apply H12. Qed.

Lemma evolves_insert h id (s : slot V X) :
  h !! id = Some pending -> evolves h (<[id := s]> h).
Proof.
  intros Hp i s0 Hi Hs. destruct (decide (i = id)) as [->|Hne].
  - congruence.
  - by rewrite list_lookup_insert_ne.
Qed.

Lemma evolves_alloc h : evolves h (h ++ [pending]).
Proof. intros i s Hi _. by apply lookup_app_l_Some. Qed.

Lemma is_pending_lookup h id : is_pending h id = true <-> h !! id = Some pending.
Proof.
  unfold is_pending. destruct (h !! id) as [[]|]; split; congruence.
Qed.

Lemma pt_destroy_evolves p h : evolves h (pt_destroy p h).
Proof.
  unfold pt_destroy. destruct (pt_state p) as [id|]; [|apply evolves_refl].
  destruct (h !! id) as [[]|] eqn:Hid; try apply evolves_refl.
  by apply evolves_insert.
Qed.

Lemma task_destroy_evolves t h : evolves h (task_destroy t h).
Proof.
  unfold task_destroy. destruct (content t); [apply pt_destroy_evolves|].
  apply evolves_refl.
Qed.

(** ** Calling a handle *)

Lemma execute_pending t p id h u :
  content t = Some p -> pt_state p = Some id -> h !! id = Some pending ->
  execute t (h, u) = completes (<[id := store (stored p u).1]> h, (stored p u).2).
Proof.
  intros Hc Hp Hid. unfold execute, pt_call. rewrite Hc, Hp. simpl.
  rewrite Hid. by destruct (stored p u).
Qed.

Lemma execute_completes t (s s' : heap V X * U) :
  execute t s = completes s' ->
  exists p id, content t = Some p /\ pt_state p = Some id
    /\ s.1 !! id = Some pending
    /\ s' = (<[id := store (stored p s.2).1]> s.1, (stored p s.2).2).
Proof.
  unfold execute, pt_call. destruct (content t) as [p|]; [|done].
  destruct (pt_state p) as [id|] eqn:Hp; [|done].
  destruct (s.1 !! id) as [[]|] eqn:Hid; try done.
  destruct (stored p s.2) as [o u'] eqn:Hf. intros [= <-].
  exists p, id. by rewrite Hf.
Qed.

Lemma execute_evolves t (s s' : heap V X * U) :
  execute t s = completes s' -> evolves s.1 s'.1.
Proof.
  intros (p & id & _ & _ & Hid & ->)%execute_completes. simpl.
  by apply evolves_insert.
Qed.

Lemma execute_ready t id (s0 : slot V X) h u :
  state_of t = Some id -> h !! id = Some s0 -> s0 <> pending ->
  execute t (h, u) = propagates (future_error promise_already_satisfied).
Proof.
  unfold state_of, execute, pt_call. destruct (content t) as [p|]; [|done].
  intros -> Hid Hs. simpl. rewrite Hid. by destruct s0.
Qed.

Lemma task_destroy_ready t id (s0 : slot V X) h :
  state_of t = Some id -> h !! id = Some s0 -> s0 <> pending ->
  task_destroy t h = h.
Proof.
  unfold state_of, task_destroy, pt_destroy. destruct (content t) as [p|]; [|done].
  intros -> Hid Hs. rewrite Hid. by destruct s0.
Qed.

Lemma task_destroy_pending t id h :
  state_of t = Some id -> h !! id = Some pending ->
  task_destroy t h = <[id := ready_exception (future_error broken_promise)]> h.
Proof.
  unfold state_of, task_destroy, pt_destroy. destruct (content t) as [p|]; [|done].
  intros -> Hid. by rewrite Hid.
Qed.

(** ** Reading an event *)

Lemma wait_get e h : wait e h = get e h.
Proof. reflexivity. Qed.

Lemma get_value e id v h :
  m_future e = Some id -> h !! id = Some (ready_value v) ->
  get e h = (got (completes v), {| m_future := None |}).
Proof. intros He Hid. unfold get, future_get. by rewrite He, Hid. Qed.

Lemma get_exception e id (x : exn X) h :
  m_future e = Some id -> h !! id = Some (ready_exception x) ->
  get e h = (got (propagates x), {| m_future := None |}).
Proof. intros He Hid. unfold get, future_get. by rewrite He, Hid. Qed.

Lemma get_store e id (o : outcome V X) h :
  m_future e = Some id -> h !! id = Some (store o) ->
  (get e h).1 = got (match o with returns v => completes v | throws x => propagates x end).
Proof.
  intros He Hid. destruct o as [v|x]; simpl in Hid.
  - by rewrite (get_value e id v h).
  - by rewrite (get_exception e id x h).
Qed.

Lemma get_would_block e h :
  (get e h).1 = would_block ->
  exists id, m_future e = Some id /\ h !! id = Some pending.
Proof.
  unfold get, future_get. destruct (m_future e) as [id|]; [|done].
  destruct (h !! id) as [[]|] eqn:Hid; try done. eauto.
Qed.

(** [ready] answers without sleeping, and says "not ready" exactly where
    [get] would sleep. *)
Lemma ready_would_block e h :
  ready e h = completes false <-> (get e h).1 = would_block.
Proof.
  unfold ready, future_is_ready, get, future_get.
  destruct (m_future e) as [id|]; [|done].
  by destruct (h !! id) as [[]|].
Qed.

Lemma paired_states t e :
  paired t e = true -> exists id, state_of t = Some id /\ m_future e = Some id.
Proof.
  unfold paired. destruct (state_of t) as [i|]; [|done].
  destruct (m_future e) as [j|]; [|done].
  intros ->%Nat.eqb_eq. eauto.
Qed.

(** ** Runnable lists of handles *)

Lemma existsb_paired ts i :
  existsb (fun t' => paired t' {| m_future := Some i |}) ts = true
  <-> Some i ∈ state_of <$> ts.
Proof.
  induction ts as [|t ts IH]; simpl.
  - split; [done | by intros ?%elem_of_nil].
  - rewrite orb_true_iff, IH, elem_of_cons. unfold paired at 1. simpl.
    destruct (state_of t) as [j|].
    + rewrite Nat.eqb_eq. split; (intros [Hj|Hin]; [left; congruence | by right]).
    + split; (intros [Hj|Hin]; [done | by right]).
Qed.

Lemma runnable_spec h ts :
  runnable h ts = true
  <-> Forall (fun t => owns_unexecuted t h = true) ts /\ NoDup (state_of <$> ts).
Proof.
  induction ts as [|t ts IH]; simpl.
  - split; [intros _; split; constructor | done].
  - rewrite !andb_true_iff, negb_true_iff, IH, Forall_cons, NoDup_cons.
    unfold owns_unexecuted at 1 3.
    destruct (state_of t) as [i|] eqn:Hi.
    + rewrite <- (existsb_paired ts i), not_true_iff_false. tauto.
    + split; [intros [[[=] _] _] | intros [[[=] _] _]].
Qed.

Lemma owns_unexecuted_insert t h id i (s : slot V X) :
  state_of t = Some i -> i <> id ->
  owns_unexecuted t (<[id := s]> h) = owns_unexecuted t h.
Proof.
  intros Hi Hne. unfold owns_unexecuted, is_pending. rewrite Hi.
  by rewrite list_lookup_insert_ne.
Qed.

(** ** The loop, one turn at a time *)

Lemma worker_stopped n w :
  m_stop (w_queue w) = true ->
  worker (S n) w
  = {| ended := finished; taken := [task_default]; executed := []; final := w |}.
Proof.
  intros Hs. simpl. rewrite (getWork_stopped _ Hs). simpl.
  by rewrite world_eta.
Qed.

Lemma worker_sleeps n w :
  getWork (w_queue w) = None ->
  worker (S n) w
  = {| ended := sleeping; taken := []; executed := []; final := w |}.
Proof. intros Hg. simpl. by rewrite Hg. Qed.

Lemma worker_turn n w t q' h' u' :
  getWork (w_queue w) = Some (t, q') -> valid t = true ->
  execute t (w_heap w, w_user w) = completes (h', u') ->
  worker (S n) w
  = ran t (worker n {| w_queue := q'; w_heap := task_destroy t h'; w_user := u' |}).
Proof.
  intros Hg Hv He. simpl. rewrite Hg, Hv. unfold task_call. by rewrite He.
Qed.

(** A handle that owns an unexecuted callable is called, its result is
    stored, and the loop goes on. *)
Lemma worker_runs n w t q' p id :
  getWork (w_queue w) = Some (t, q') ->
  content t = Some p -> pt_state p = Some id ->
  w_heap w !! id = Some pending ->
  worker (S n) w
  = ran t (worker n {| w_queue := q';
                       w_heap := <[id := store (stored p (w_user w)).1]> (w_heap w);
                       w_user := (stored p (w_user w)).2 |}).
Proof.
  intros Hg Hc Hp Hid.
  assert (state_of t = Some id) as Hst by (unfold state_of; by rewrite Hc).
  rewrite (worker_turn n w t q' _ _ Hg (valid_state_of t id Hst)
             (execute_pending t p id _ _ Hc Hp Hid)).
  rewrite (task_destroy_ready t id (store (stored p (w_user w)).1)); [done..| |].
  - apply list_lookup_insert_eq. by eapply lookup_lt_Some.
  - apply store_ready.
Qed.

Lemma worker_evolves n : forall w, evolves (w_heap w) (w_heap (final (worker n w))).
Proof.
  induction n as [|n IH]; intros w; simpl; [apply evolves_refl|].
  destruct (getWork (w_queue w)) as [[t q']|]; [|apply evolves_refl].
  destruct (valid t); simpl.
  - unfold task_call.
    destruct (execute t (w_heap w, w_user w)) as [[h' u']| |] eqn:He;
      simpl; try apply evolves_refl.
    eapply evolves_trans; [|apply IH]. simpl.
    eapply evolves_trans; [|apply task_destroy_evolves].
    apply (execute_evolves _ _ _ He).
  - apply task_destroy_evolves.
Qed.

(** The handles the loop calls are the valid ones among those it was given,
    an invalid handle is the last one it is given, and the loop is left
    exactly on such a handle. *)
Lemma worker_trace n : forall w,
  executed (worker n w) = List.filter valid (taken (worker n w))
  /\ Forall (fun t => valid t = true) (removelast (taken (worker n w)))
  /\ (ended (worker n w) = finished
      <-> exists t, last (taken (worker n w)) = Some t /\ valid t = false).
Proof.
  induction n as [|n IH]; intros w; simpl.
  - split; [done|]. split; [constructor|]. split; [done | by intros (t & ? & _)].
  - destruct (getWork (w_queue w)) as [[t q']|].
    2:{ simpl. split; [done|]. split; [constructor|].
        split; [done | by intros (t & ? & _)]. }
    destruct (valid t) eqn:Hv; simpl.
    + unfold task_call.
      destruct (execute t (w_heap w, w_user w)) as [[h' u']| |]; simpl;
        rewrite ?Hv.
      * destruct (IH {| w_queue := q'; w_heap := task_destroy t h'; w_user := u' |})
          as (Hx & Hl & Hf).
        set (r := worker n _) in *. split; [by rewrite Hx|].
        destruct (taken r) as [|t' l'] eqn:Ht.
        { split; [constructor|]. rewrite Hf. simpl.
          split; [by intros (? & ? & _) | intros (? & [= <-] & ?); congruence]. }
        split; [by constructor|]. by rewrite Hf, last_cons_cons.
      * split; [done|]. split; [constructor|].
        split; [done | intros (? & [= <-] & ?); congruence].
      * split; [done|]. split; [constructor|].
        split; [done | intros (? & [= <-] & ?); congruence].
    + rewrite Hv. split; [done|]. split; [constructor|].
      split; [eauto | done].
Qed.

(** On an open queue of runnable handles a single worker calls all of them,
    the one added last first, and then sleeps. *)
Lemma worker_drains ts : forall h u n,
  runnable h ts = true -> length ts < n ->
  let r := worker n {| w_queue := {| m_tasks := ts; m_stop := false |};
                       w_heap := h; w_user := u |} in
  ended r = sleeping /\ executed r = rev ts /\ taken r = rev ts
  /\ m_tasks (w_queue (final r)) = [].
Proof.
  induction ts as [|t ts IH] using rev_ind; intros h u n Hr Hn.
  - destruct n as [|n]; [simpl in Hn; lia|]. by rewrite worker_sleeps.
  - destruct n as [|n]; [simpl in Hn; lia|].
    rewrite length_app in Hn. simpl in Hn.
    apply runnable_spec in Hr as [Hall Hnd].
    apply Forall_app in Hall as [Hall Ht]. apply Forall_cons in Ht as [Ht _].
    rewrite fmap_app in Hnd. apply NoDup_app in Hnd as (Hnd & Hdis & _).
    unfold owns_unexecuted in Ht.
    destruct (state_of t) as [id|] eqn:Hst; [|done].
    apply is_pending_lookup in Ht.
    pose proof Hst as Hp. unfold state_of in Hp.
    destruct (content t) as [p|] eqn:Hc; [|done].
    rewrite (worker_runs n {| w_queue := {| m_tasks := ts ++ [t]; m_stop := false |};
                              w_heap := h; w_user := u |}
               t _ p id (getWork_snoc ts t) Hc Hp Ht).
    cbn [w_heap w_user].
    edestruct (IH (<[id := store (stored p u).1]> h) (stored p u).2 n)
      as (He & Hx & Hk & Hq); [|lia|].
    + apply runnable_spec. split; [|done].
      apply Forall_forall. intros t' Hin.
      rewrite Forall_forall in Hall. specialize (Hall t' Hin).
      unfold owns_unexecuted in Hall |- *.
      destruct (state_of t') as [i|] eqn:Hi; [|done].
      unfold is_pending in *. rewrite list_lookup_insert_ne; [done|].
      intros ->. apply (Hdis (Some i)).
      * rewrite <- Hi. by apply list_elem_of_fmap_2.
      * rewrite list_fmap_singleton, Hst. by apply list_elem_of_singleton.
    + simpl. rewrite rev_unit. by rewrite He, Hx, Hk, Hq.
Qed.

(** ** Submission *)

Lemma createF_eq {A : Type} q h (f : A -> callable U V X) (args : A) :
  createF q h f args
  = ({| m_future := Some (length h) |},
     addWork {| content := Some {| stored := f args; pt_state := Some (length h) |} |} q,
     h ++ [pending]).
Proof. reflexivity. Qed.

Lemma createM_eq {C A : Type} q h (f : C -> A -> callable U V X) (c : C) (args : A) :
  createM q h f c args = createF q h (f c) args.
Proof. reflexivity. Qed.

Lemma back_addWork t q : back (m_tasks (addWork t q)) = t.
Proof. rewrite addWork_tasks. unfold back. by rewrite last_snoc. Qed.

(** The handle a submission puts on the queue and the event it returns are
    the two ends of a new, pending shared state. *)
Lemma createF_paired {A : Type} q h (f : A -> callable U V X) (args : A) e q1 h1 :
  createF q h f args = (e, q1, h1) ->
  paired (back (m_tasks q1)) e = true
  /\ content (back (m_tasks q1))
     = Some {| stored := f args; pt_state := Some (length h) |}
  /\ (get e h1).1 = would_block
  /\ evolves h h1.
Proof.
  rewrite createF_eq. intros [= <- <- <-]. rewrite back_addWork.
  split; [|split; [done|split]].
  - unfold paired. simpl. apply Nat.eqb_refl.
  - unfold get, future_get. simpl. by rewrite list_lookup_middle.
  - apply evolves_alloc.
Qed.

(** Calling a handle whose result is still awaited stores what the callable
    did, and every later read of the paired event sees it. *)
Lemma execute_delivers t e p h u :
  content t = Some p -> paired t e = true -> (get e h).1 = would_block ->
  exists h', execute t (h, u) = completes (h', (stored p u).2)
    /\ forall h'', evolves h' h'' ->
         (get e h'').1
         = got (match (stored p u).1 with
                | returns v => completes v
                | throws x => propagates x
                end).
Proof.
  intros Hc (id & Hst & He)%paired_states (id' & He' & Hid)%get_would_block.
  assert (id' = id) as -> by congruence.
  assert (pt_state p = Some id) as Hp by (unfold state_of in Hst; by rewrite Hc in Hst).
  eexists. split; [by apply execute_pending|].
  intros h'' Hev. apply (get_store e id); [done|].
  apply Hev; [|apply store_ready].
  apply list_lookup_insert_eq. by eapply lookup_lt_Some.
Qed.

(** ** Results and failures *)

Lemma paired_pending t e h :
  paired t e = true -> owns_unexecuted t h = true -> (get e h).1 = would_block.
Proof.
  intros (id & Hst & He)%paired_states. unfold owns_unexecuted. rewrite Hst.
  intros Hid%is_pending_lookup. unfold get, future_get. by rewrite He, Hid.
Qed.

Lemma createF_owns {A : Type} q h (f : A -> callable U V X) (args : A) e q1 h1 :
  createF q h f args = (e, q1, h1) ->
  m_tasks q1 = m_tasks q ++ [back (m_tasks q1)]
  /\ owns_unexecuted (back (m_tasks q1)) h1 = true.
Proof.
  rewrite createF_eq. intros [= <- <- <-]. rewrite back_addWork, addWork_tasks.
  split; [done|]. unfold owns_unexecuted. simpl. apply is_pending_lookup.
  by rewrite list_lookup_middle.
Qed.

(** C1 — result delivery.  Let the event [e], the queue [q1] and the heap
    [h1] come from [createF] applied to [f] and [args], or from [createM]
    applied to the member function [g], the object [c] and [args], and let
    [fn] be the bound call.  Then the submission has put one handle on the
    queue, that handle and [e] are the two ends of one shared state, the
    handle owns its callable unexecuted and [e] awaits the result.  And
    whenever that handle is executed while it still owns its callable
    unexecuted and the call returns [v], [execute] completes and [get] and
    [wait] on [e] yield exactly [v], in that heap and in every later one. *)
Theorem result_delivery {C A : Type} q h
  (f : A -> callable U V X) (g : C -> A -> callable U V X) (c : C) (args : A)
  e q1 h1 (fn : callable U V X) :
  (createF q h f args = (e, q1, h1) /\ fn = f args)
  \/ (createM q h g c args = (e, q1, h1) /\ fn = g c args) ->
  m_tasks q1 = m_tasks q ++ [back (m_tasks q1)]
  /\ paired (back (m_tasks q1)) e = true
  /\ owns_unexecuted (back (m_tasks q1)) h1 = true
  /\ (get e h1).1 = would_block
  /\ forall h2 u2 v u3,
       owns_unexecuted (back (m_tasks q1)) h2 = true ->
       fn u2 = (returns v, u3) ->
       exists h3,
         execute (back (m_tasks q1)) (h2, u2) = completes (h3, u3)
         /\ forall h4, evolves h3 h4 ->
              (get e h4).1 = got (completes v)
              /\ (wait e h4).1 = got (completes v).
Proof.
  intros Hsub.
  assert (createF q h (fun _ : unit => fn) tt = (e, q1, h1)) as Hc.
  { destruct Hsub as [[Hc ->]|[Hc ->]]; exact Hc. }
  destruct (createF_paired q h _ tt e q1 h1 Hc) as (Hp & Hcont & Hwait & _).
  destruct (createF_owns q h _ tt e q1 h1 Hc) as (Htasks & Hown).
  split; [done|]. split; [done|]. split; [done|]. split; [done|].
  intros h2 u2 v u3 Hown2 Hfn.
  pose proof (paired_pending _ e h2 Hp Hown2) as Hblock.
  destruct (execute_delivers _ e _ h2 u2 Hcont Hp Hblock) as (h3 & Hex & Hget).
  simpl in Hex, Hget. rewrite Hfn in Hex, Hget. simpl in Hex, Hget.
  exists h3. split; [done|]. intros h4 Hev.
  change (wait e h4) with (get e h4). by rewrite Hget.
Qed.

(** C5 — failure propagation.  With [e], [q1] and [fn] as for result
    delivery: if the call throws [x] when the task is executed, [execute]
    still completes, so nothing leaves the worker's call [t()] and the loop
    goes on with its next turn; the exception is stored, and [get] and [wait]
    on [e] rethrow that same [x], in that heap and in every later one. *)
Theorem failure_propagation {C A : Type} q h
  (f : A -> callable U V X) (g : C -> A -> callable U V X) (c : C) (args : A)
  e q1 h1 (fn : callable U V X) h2 u2 (x : exn X) u3 :
  (createF q h f args = (e, q1, h1) /\ fn = f args)
  \/ (createM q h g c args = (e, q1, h1) /\ fn = g c args) ->
  (get e h2).1 = would_block ->
  fn u2 = (throws x, u3) ->
  exists h3,
    execute (back (m_tasks q1)) (h2, u2) = completes (h3, u3)
    /\ (forall h4, evolves h3 h4 ->
          (get e h4).1 = got (propagates x) /\ (wait e h4).1 = got (propagates x))
    /\ (forall n q2 q3,
          getWork q2 = Some (back (m_tasks q1), q3) ->
          worker (S n) {| w_queue := q2; w_heap := h2; w_user := u2 |}
          = ran (back (m_tasks q1))
              (worker n {| w_queue := q3; w_heap := h3; w_user := u3 |})).
Proof.
  intros Hsub Hblock Hfn.
  assert (createF q h (fun _ : unit => fn) tt = (e, q1, h1)) as Hc.
  { destruct Hsub as [[Hc ->]|[Hc ->]]; exact Hc. }
  destruct (createF_paired q h _ tt e q1 h1 Hc) as (Hp & Hcont & _ & _).
  destruct (get_would_block _ _ Hblock) as (id & He & Hid).
  destruct (paired_states _ _ Hp) as (id' & Hst & He').
  assert (id' = id) as -> by congruence.
  assert (id = length h) as ->.
  { unfold state_of in Hst. rewrite Hcont in Hst. simpl in Hst. congruence. }
  set (p := {| stored := fn; pt_state := Some (length h) |}) in *.
  exists (<[length h := ready_exception x]> h2).
  pose proof (execute_pending _ p (length h) h2 u2 Hcont eq_refl Hid) as Hex.
  simpl in Hex. rewrite Hfn in Hex. simpl in Hex.
  split; [done|]. split.
  - intros h4 Hev. change (wait e h4) with (get e h4).
    rewrite (get_exception e (length h) x h4); [done..|].
    apply Hev; [|done]. apply list_lookup_insert_eq. by eapply lookup_lt_Some.
  - intros n q2 q3 Hg.
    rewrite (worker_runs n {| w_queue := q2; w_heap := h2; w_user := u2 |}
               _ q3 p (length h) Hg Hcont eq_refl Hid).
    simpl. by rewrite Hfn.
Qed.

(** C4 — abandoned result.  For a handle [t] and an event [e] on the same
    shared state whose result is still awaited, hence a task on which
    [execute] was never called: once [t] is destroyed, [get] and [wait] on
    [e] do not block, they throw [future_error(broken_promise)], in the heap
    the destructor leaves and in every later one. *)
Theorem abandoned_result t e h h' :
  paired t e = true ->
  (get e h).1 = would_block ->
  evolves (task_destroy t h) h' ->
  (get e h').1 = got (propagates (future_error broken_promise))
  /\ (wait e h').1 = got (propagates (future_error broken_promise)).
Proof.
  intros (id & Hst & He)%paired_states (id' & He' & Hid)%get_would_block Hev.
  assert (id' = id) as -> by congruence.
  change (wait e h') with (get e h').
  rewrite (get_exception e id (future_error broken_promise) h'); [done..|].
  apply Hev; [|done]. rewrite (task_destroy_pending t id h Hst Hid).
  apply list_lookup_insert_eq. by eapply lookup_lt_Some.
Qed.

(** ** The queue *)


(** C3 — no dequeue after shutdown.  Once the flag is set, [getWork] returns
    the empty handle and leaves the queue untouched, whatever it holds;
    [addWork] still appends; and over any further sequence of calls every
    handle handed out is empty while the queue keeps all it held and all that
    was added, in order. *)
Theorem getWork_after_stop q :
  m_stop q = true ->
  getWork q = Some (task_default, q)
  /\ valid (@task_default U V X) = false
  /\ (forall t, m_tasks (addWork t q) = m_tasks q ++ [t]
                /\ m_stop (addWork t q) = true)
  /\ (forall os,
        Forall (fun t => valid t = false) (run_ops q os).2
        /\ m_tasks (run_ops q os).1 = m_tasks q ++ added os
        /\ m_stop (run_ops q os).1 = true).
Proof.
  intros Hs. split; [by apply getWork_stopped|]. split; [done|]. split.
  - intros t. by rewrite addWork_tasks, addWork_stop.
  - intros os. destruct (run_ops_stopped os q Hs) as [Hv Ht].
    split; [done|]. split; [done|]. by apply run_ops_stop.
Qed.

(** C8 — the shutdown flag only goes up.  [stop] sets the flag; from then on
    it is set after every sequence of [addWork], [getWork] and [stop] calls;
    and calling [stop] again, any number of times, gives the very same
    queue. *)
Theorem stop_one_way q os k :
  m_stop (stop q) = true
  /\ m_stop (run_ops (stop q) os).1 = true
  /\ stop (stop q) = stop q
  /\ Nat.iter k stop (stop q) = stop q.
Proof.
  split; [done|]. split; [by apply run_ops_stop|]. split; [done|].
  induction k as [|k IH]; simpl; [done|]. by rewrite IH.
Qed.

(** ** The handle *)

(** C10 — the default handle is empty.  [valid()] is false on [task()]; what
    a move constructor or a move assignment leaves behind is that same empty
    handle; and [execute] on it is the same null dereference. *)
Theorem default_task_empty :
  valid (@task_default U V X) = false
  /\ (forall t, (task_move t).2 = task_default)
  /\ (forall (lhs rhs : task U V X) h, (task_assign lhs rhs h).1.2 = task_default)
  /\ (forall s : heap V X * U, execute task_default s = undefined).
Proof. done. Qed.

(** C6, as the code has it — [valid()] is true exactly when the handle has a
    holder.  A handle that owns an unexecuted callable is valid and an empty
    one is not; but [execute] leaves the holder in place, so after [execute]
    has run [valid()] is still true although the callable has been
    executed. *)
Theorem valid_iff_holder t :
  (valid t = true <-> is_Some (content t))
  /\ (forall h, owns_unexecuted t h = true -> valid t = true)
  /\ (forall s s', execute t s = completes s' ->
        valid t = true /\ owns_unexecuted t s'.1 = false).
Proof.
  split; [|split].
  - unfold valid. destruct (content t) as [p|].
    + split; [eauto | done].
    + split; [done | by intros [? ?]].
  - intros h. unfold owns_unexecuted.
    destruct (state_of t) as [id|] eqn:Hst; [|done].
    intros _. by apply (valid_state_of t id).
  - intros s s' (p & id & Hc & Hp & Hid & ->)%execute_completes.
    assert (state_of t = Some id) as Hst by (unfold state_of; by rewrite Hc).
    split; [by apply (valid_state_of t id)|].
    unfold owns_unexecuted, is_pending. rewrite Hst. simpl.
    rewrite list_lookup_insert_eq by (by eapply lookup_lt_Some).
    by destruct (stored p s.2).1.
Qed.

Lemma execute_no_state t (s : heap V X * U) :
  valid t = true -> state_of t = None ->
  execute t s = propagates (future_error no_state).
Proof.
  unfold valid, state_of, execute, pt_call.
  destruct (content t) as [p|]; [|done]. by intros _ ->.
Qed.

Lemma execute_completes_iff t (s : heap V X * U) :
  (exists s', execute t s = completes s') <-> owns_unexecuted t s.1 = true.
Proof.
  split.
  - intros (s' & (p & id & Hc & Hp & Hid & _)%execute_completes).
    unfold owns_unexecuted, state_of. rewrite Hc, Hp. by apply is_pending_lookup.
  - unfold owns_unexecuted, state_of.
    destruct (content t) as [p|] eqn:Hc; [|done].
    destruct (pt_state p) as [id|] eqn:Hp; [|done].
    intros Hid%is_pending_lookup. destruct s as [h u]. eexists.
    by apply (execute_pending t p id).
Qed.

(** C7, as the code has it — [execute] has no check of its own.  On an empty
    handle it dereferences the null [content]: undefined behaviour, nothing is
    reported.  A second [execute] on a task that has run is reported, by the
    held [packaged_task], which throws
    [future_error(promise_already_satisfied)].  A valid handle whose
    [packaged_task] has no shared state throws [future_error(no_state)], on
    its first [execute] too.  [execute] completes exactly on a handle that
    owns a callable with a shared state that is not ready; the handle that
    [createF] or [createM] puts on the queue is such a handle. *)
Theorem execute_misuse t (s : heap V X * U) :
  (valid t = false -> execute t s = undefined)
  /\ (forall s', execute t s = completes s' ->
        execute t s' = propagates (future_error promise_already_satisfied))
  /\ (valid t = true -> state_of t = None ->
        execute t s = propagates (future_error no_state))
  /\ ((exists s', execute t s = completes s') <-> owns_unexecuted t s.1 = true)
  /\ (owns_unexecuted t s.1 = true -> valid t = true)
  /\ (forall (A C : Type) q h (f : A -> callable U V X)
        (g : C -> A -> callable U V X) (c : C) (args : A),
        owns_unexecuted (back (m_tasks (createF q h f args).1.2))
          (createF q h f args).2 = true
        /\ owns_unexecuted (back (m_tasks (createM q h g c args).1.2))
             (createM q h g c args).2 = true).
Proof.
  split; [|split; [|split; [|split; [|split]]]].
  - unfold valid, execute. by destruct (content t).
  - intros s' (p & id & Hc & Hp & Hid & ->)%execute_completes.
    apply (execute_ready t id (store (stored p s.2).1)).
    + unfold state_of. by rewrite Hc.
    + apply list_lookup_insert_eq. by eapply lookup_lt_Some.
    + apply store_ready.
  - apply execute_no_state.
  - apply execute_completes_iff.
  - unfold owns_unexecuted. destruct (state_of t) as [id|] eqn:Hst; [|done].
    intros _. by apply (valid_state_of t id).
  - intros A C q h f g c args. split.
    + by apply (createF_owns q h f args (createF q h f args).1.1).
    + by apply (createF_owns q h (g c) args (createF q h (g c) args).1.1).
Qed.

(** ** The worker *)

Lemma valid_content t : valid t = false -> content t = None.
Proof. unfold valid. by destruct (content t). Qed.

Lemma execute_defined t (s : heap V X * U) :
  valid t = true -> execute t s <> undefined.
Proof.
  unfold valid, execute, pt_call. destruct (content t) as [p|]; [|done].
  intros _. destruct (pt_state p) as [id|]; [|done].
  destruct (s.1 !! id) as [[]|]; try done. by destruct (stored p s.2).
Qed.

(** The handles of a run are what that many [getWork] calls in a row return,
    and the queue it leaves is the queue after those calls. *)
Lemma worker_gets n : forall w,
  run_ops (w_queue w) (replicate (length (taken (worker n w))) op_getWork)
  = (w_queue (final (worker n w)), taken (worker n w)).
Proof.
  induction n as [|n IH]; intros w; simpl; [done|].
  destruct (getWork (w_queue w)) as [[t q']|] eqn:Hg; [|done].
  destruct (valid t); simpl.
  - unfold task_call.
    destruct (execute t (w_heap w, w_user w)) as [[h' u']| |]; simpl;
      rewrite Hg; [|done..].
    pose proof (IH {| w_queue := q'; w_heap := task_destroy t h'; w_user := u' |})
      as Hrest.
    cbn [w_queue] in Hrest. by rewrite Hrest.
  - by rewrite Hg.
Qed.

(** The state a run leaves is the state the calls on its executed handles
    leave, and a run ends with an exception exactly when one of those calls
    throws it. *)
Lemma worker_calls n : forall w,
  call_all (executed (worker n w)) (w_heap w, w_user w)
  = match ended (worker n w) with
    | escaped x => propagates x
    | undefined_behaviour => undefined
    | _ => completes (w_heap (final (worker n w)), w_user (final (worker n w)))
    end.
Proof.
  induction n as [|n IH]; intros w; simpl; [done|].
  destruct (getWork (w_queue w)) as [[t q']|]; [|done].
  destruct (valid t) eqn:Hv; simpl.
  - unfold task_call.
    destruct (execute t (w_heap w, w_user w)) as [[h' u']| |] eqn:He; simpl;
      unfold task_call; rewrite He; [|done..].
    apply (IH {| w_queue := q'; w_heap := task_destroy t h'; w_user := u' |}).
  - unfold task_destroy. by rewrite (valid_content t Hv).
Qed.

Lemma worker_defined n : forall w, ended (worker n w) <> undefined_behaviour.
Proof.
  induction n as [|n IH]; intros w; simpl; [done|].
  destruct (getWork (w_queue w)) as [[t q']|]; [|done].
  destruct (valid t) eqn:Hv; simpl; [|done].
  unfold task_call.
  destruct (execute t (w_heap w, w_user w)) as [[h' u']| |] eqn:He; simpl.
  - apply IH.
  - done.
  - by destruct (execute_defined t _ Hv He).
Qed.

Lemma worker_fuel n : forall w,
  ended (worker n w) = out_of_fuel -> length (taken (worker n w)) = n.
Proof.
  induction n as [|n IH]; intros w; simpl; [done|].
  destruct (getWork (w_queue w)) as [[t q']|]; [|done].
  destruct (valid t); simpl; [|done].
  unfold task_call.
  destruct (execute t (w_heap w, w_user w)) as [[h' u']| |]; simpl; try done.
  intros Hf. by rewrite (IH _ Hf).
Qed.

Lemma worker_escaped n : forall w (x : exn X),
  ended (worker n w) = escaped x ->
  exists t, last (taken (worker n w)) = Some t /\ valid t = true.
Proof.
  induction n as [|n IH]; intros w x; simpl; [done|].
  destruct (getWork (w_queue w)) as [[t q']|]; [|done].
  destruct (valid t) eqn:Hv; simpl; [|done].
  unfold task_call.
  destruct (execute t (w_heap w, w_user w)) as [[h' u']| |]; simpl.
  - intros Hx. destruct (IH _ x Hx) as (t' & Hl & Hv').
    exists t'. split; [|done].
    destruct (taken (worker n _)) as [|t0 l]; [done|]. by rewrite last_cons_cons.
  - intros _. by exists t.
  - done.
Qed.

Lemma worker_asleep n : forall w,
  ended (worker n w) = sleeping -> getWork (w_queue (final (worker n w))) = None.
Proof.
  induction n as [|n IH]; intros w; simpl; [done|].
  destruct (getWork (w_queue w)) as [[t q']|] eqn:Hg; [|done].
  destruct (valid t); simpl; [|done].
  unfold task_call.
  destruct (execute t (w_heap w, w_user w)) as [[h' u']| |]; simpl; try done.
  apply IH.
Qed.

(** C9, as the code has it — the worker loop.  The handles of a run are what
    its [getWork] calls return, one call per turn on the queue the turn before
    left.  The handles it calls are exactly the valid ones among them, one
    after the other, and the state it leaves is the state those calls leave.
    Only the last handle returned can be invalid, and the loop is left by
    [break] exactly when it is.  The only other way the loop ends is an
    exception thrown by [t()] on a valid handle, which leaves [worker]; an
    empty handle is never called.  A run that is cut off has made as many
    turns as it was given, one that is left asleep waits in [getWork], and on
    a stopped queue the worker gets the empty handle and leaves at once,
    nothing called and nothing changed. *)
Theorem worker_loop n w :
  run_ops (w_queue w) (replicate (length (taken (worker n w))) op_getWork)
  = (w_queue (final (worker n w)), taken (worker n w))
  /\ executed (worker n w) = List.filter valid (taken (worker n w))
  /\ call_all (executed (worker n w)) (w_heap w, w_user w)
     = match ended (worker n w) with
       | escaped x => propagates x
       | undefined_behaviour => undefined
       | _ => completes (w_heap (final (worker n w)), w_user (final (worker n w)))
       end
  /\ Forall (fun t => valid t = true) (removelast (taken (worker n w)))
  /\ (ended (worker n w) = finished
      <-> exists t, last (taken (worker n w)) = Some t /\ valid t = false)
  /\ (forall x, ended (worker n w) = escaped x ->
        exists t, last (taken (worker n w)) = Some t /\ valid t = true)
  /\ ended (worker n w) <> undefined_behaviour
  /\ (ended (worker n w) = out_of_fuel -> length (taken (worker n w)) = n)
  /\ (ended (worker n w) = sleeping ->
      getWork (w_queue (final (worker n w))) = None)
  /\ (getWork (w_queue w) = None ->
      worker (S n) w
      = {| ended := sleeping; taken := []; executed := []; final := w |})
  /\ (m_stop (w_queue w) = true ->
      worker (S n) w
      = {| ended := finished; taken := [task_default]; executed := [];
           final := w |}).
Proof.
  destruct (worker_trace n w) as (Hx & Hl & Hf).
  split; [apply worker_gets|]. split; [done|]. split; [apply worker_calls|].
  split; [done|]. split; [done|]. split; [apply worker_escaped|].
  split; [apply worker_defined|]. split; [apply worker_fuel|].
  split; [apply worker_asleep|]. split.
  - apply worker_sleeps.
  - apply worker_stopped.
Qed.

End Properties.

(** * The properties on the sample callables *)

(** [f(x) = x*x] submitted for [x = 100, ..., 0]: one worker runs them all and
    every event yields its square. *)
Example squares_delivered :
  let '(es, q, h) := submit_all square 101 queue_new [] in
  let r := worker 102 {| w_queue := q; w_heap := h; w_user := [] |} in
  ended r = sleeping
  /\ get_all es (w_heap (final r))
     = map (fun x => got (completes (x * x))) (rev (seq 0 101)).
Proof. vm_compute. split; reflexivity. Qed.

(** The shared log after one worker has run [note 1], [note 2], [note 3]. *)
Example notes_logged :
  w_user (final (worker 4 {| w_queue := three_notes.1.2;
                             w_heap := three_notes.2; w_user := [] |}))
  = [3; 2; 1].
Proof. reflexivity. Qed.

(** Three submissions, no worker, [stop], then the queue is torn down:
    [getWork] hands out the empty handle and every event reports
    [broken_promise]. *)
Example abandoned_on_shutdown :
  let q := stop three_notes.1.2 in
  getWork q = Some (task_default, q)
  /\ get_all three_notes.1.1 (queue_destroy q three_notes.2)
     = [got (propagates (future_error broken_promise));
        got (propagates (future_error broken_promise));
        got (propagates (future_error broken_promise))].
Proof. split; reflexivity. Qed.

(** C6 as stated fails: the sample handle has been executed, its callable is
    no longer unexecuted, and [valid()] is still true. *)
Lemma valid_after_execute_counterexample :
  execute sample_task (sample_heap, []) = completes ([ready_value 9], [])
  /\ valid sample_task = true
  /\ owns_unexecuted sample_task [ready_value 9] = false
  /\ ~ (valid sample_task = true
        <-> owns_unexecuted sample_task [ready_value 9] = true).
Proof.
  split; [reflexivity|]. split; [reflexivity|]. split; [reflexivity|].
  intros [Hv _]. specialize (Hv eq_refl). discriminate Hv.
Qed.

(** C7 as stated fails: [execute] on the empty handle is not reported as an
    error, no exception leaves the call; its behaviour is undefined.  And a
    valid handle that was never executed can still end in the error branch:
    the one whose packaged task has no shared state throws [no_state]. *)
Lemma execute_empty_counterexample :
  valid (@task_default log nat nat) = false
  /\ execute (@task_default log nat nat) ([], []) = undefined
  /\ ~ (exists x, execute (@task_default log nat nat) ([], []) = propagates x)
  /\ valid nostate_task = true
  /\ execute nostate_task ([], []) = propagates (future_error no_state).
Proof.
  split; [reflexivity|]. split; [reflexivity|].
  split; [|split; reflexivity]. intros [x Hx]. discriminate Hx.
Qed.

Lemma result_delivery_witness :
  let sF := createF queue_new [] square 3 in
  let sM := createM sample_queue sample_heap bump 0 2 in
  ((get sF.1.1 sF.2).1 = would_block
   /\ exists h3,
        execute (back (m_tasks sF.1.2)) (sF.2, []) = completes (h3, [])
        /\ forall h4, evolves h3 h4 ->
             (get sF.1.1 h4).1 = got (completes 9)
             /\ (wait sF.1.1 h4).1 = got (completes 9))
  /\ ((get sM.1.1 sM.2).1 = would_block
      /\ exists h3,
           execute (back (m_tasks sM.1.2)) (sM.2, [5]) = completes (h3, [7])
           /\ forall h4, evolves h3 h4 ->
                (get sM.1.1 h4).1 = got (completes 7)
                /\ (wait sM.1.1 h4).1 = got (completes 7)).
Proof.
  intros sF sM. split.
  - destruct (result_delivery queue_new [] square bump 0 3
                sF.1.1 sF.1.2 sF.2 (square 3))
      as (_ & _ & _ & Hwait & Hrun).
    + left. split; reflexivity.
    + split; [exact Hwait|]. apply (Hrun sF.2 [] 9 []); reflexivity.
  - destruct (result_delivery sample_queue sample_heap square bump 0 2
                sM.1.1 sM.1.2 sM.2 (bump 0 2))
      as (_ & _ & _ & Hwait & Hrun).
    + right. split; reflexivity.
    + split; [exact Hwait|]. apply (Hrun sM.2 [5] 7 [7]); reflexivity.
Defined.

Lemma failure_propagation_witness :
  createM queue_new [] (fun _ : nat => failing) 0 7
  = (sample_event, addWork {| content := Some {| stored := failing 7;
                                                  pt_state := Some 0 |} |} queue_new,
     [pending])
  /\ exists h3,
       execute {| content := Some {| stored := failing 7; pt_state := Some 0 |} |}
         ([pending], []) = completes (h3, [])
       /\ forall h4, evolves h3 h4 ->
            (get sample_event h4).1 = got (propagates (other 7))
            /\ (wait sample_event h4).1 = got (propagates (other 7)).
Proof.
  split; [reflexivity|].
  destruct (failure_propagation queue_new [] failing (fun _ : nat => failing) 0 7
              sample_event
              (addWork {| content := Some {| stored := failing 7;
                                             pt_state := Some 0 |} |} queue_new)
              [pending] (failing 7) [pending] [] (other 7) [])
    as (h3 & Hex & Hget & _).
  - right. split; reflexivity.
  - reflexivity.
  - reflexivity.
  - exists h3. split; [exact Hex | exact Hget].
Defined.

Lemma abandoned_result_witness :
  paired sample_task sample_event = true
  /\ (get sample_event sample_heap).1 = would_block
  /\ (get sample_event (task_destroy sample_task sample_heap)).1
     = got (propagates (future_error broken_promise))
  /\ (wait sample_event (task_destroy sample_task sample_heap)).1
     = got (propagates (future_error broken_promise)).
Proof.
  split; [reflexivity|]. split; [reflexivity|].
  apply (abandoned_result sample_task sample_event sample_heap
           (task_destroy sample_task sample_heap)).
  - reflexivity.
  - reflexivity.
  - intros i s Hi _. exact Hi.
Defined.


Lemma getWork_after_stop_witness :
  m_stop (stop sample_queue) = true
  /\ getWork (stop sample_queue) = Some (task_default, stop sample_queue)
  /\ m_tasks (run_ops (stop sample_queue)
                [op_getWork; op_addWork sample_task; op_getWork]).1
     = [sample_task; sample_task].
Proof.
  split; [reflexivity|].
  destruct (getWork_after_stop (stop sample_queue)) as (Hg & _ & _ & Hops).
  - reflexivity.
  - split; [exact Hg|].
    exact (proj1 (proj2 (Hops [op_getWork; op_addWork sample_task; op_getWork]))).
Defined.

Lemma valid_iff_holder_witness :
  execute sample_task (sample_heap, []) = completes ([ready_value 9], [])
  /\ owns_unexecuted sample_task sample_heap = true
  /\ valid sample_task = true
  /\ owns_unexecuted sample_task [ready_value 9] = false.
Proof.
  split; [reflexivity|]. split; [reflexivity|].
  destruct (valid_iff_holder sample_task) as (_ & _ & Hx).
  exact (Hx (sample_heap, []) ([ready_value 9], []) eq_refl).
Defined.

Lemma execute_misuse_witness :
  valid sample_task = true
  /\ owns_unexecuted sample_task sample_heap = true
  /\ (exists s', execute sample_task (sample_heap, []) = completes s')
  /\ execute sample_task ([ready_value 9], [])
     = propagates (future_error promise_already_satisfied)
  /\ execute (@task_default log nat nat) (sample_heap, []) = undefined
  /\ execute nostate_task (sample_heap, [])
     = propagates (future_error no_state).
Proof.
  split; [reflexivity|]. split; [reflexivity|].
  destruct (execute_misuse sample_task (sample_heap, []))
    as (_ & Hagain & _ & Hrun & _).
  split; [apply Hrun; reflexivity|].
  split; [exact (Hagain ([ready_value 9], []) eq_refl)|].
  split.
  - apply (proj1 (execute_misuse task_default (sample_heap, []))). reflexivity.
  - destruct (execute_misuse nostate_task (sample_heap, []))
      as (_ & _ & Hnone & _).
    apply Hnone; reflexivity.
Defined.

(** C9 as stated fails: a valid handle whose call throws ends the loop,
    although [getWork] never returned an invalid handle and the queue is
    neither stopped nor empty. *)
Lemma worker_escapes_counterexample :
  let w := {| w_queue := addWork nostate_task three_notes.1.2;
              w_heap := three_notes.2; w_user := ([] : log) |} in
  ended (worker 10 w) = escaped (future_error no_state)
  /\ taken (worker 10 w) = [nostate_task]
  /\ forallb valid (taken (worker 10 w)) = true
  /\ m_stop (w_queue (final (worker 10 w))) = false
  /\ length (m_tasks (w_queue (final (worker 10 w)))) = 3
  /\ ~ (exists t, last (taken (worker 10 w)) = Some t /\ valid t = false).
Proof.
  intros w. split; [reflexivity|]. split; [reflexivity|]. split; [reflexivity|].
  split; [reflexivity|]. split; [reflexivity|].
  intros (t & Hl & Hv). vm_compute in Hl. injection Hl as <-. discriminate Hv.
Qed.

Lemma worker_loop_witness :
  let w1 := {| w_queue := stop three_notes.1.2; w_heap := three_notes.2;
               w_user := ([] : log) |} in
  let w2 := {| w_queue := {| m_tasks := task_default :: m_tasks three_notes.1.2;
                             m_stop := false |};
               w_heap := three_notes.2; w_user := ([] : log) |} in
  (m_stop (w_queue w1) = true
   /\ worker 1 w1
      = {| ended := finished; taken := [task_default]; executed := [];
           final := w1 |})
  /\ ended (worker 5 w2) = finished
  /\ (exists t, last (taken (worker 5 w2)) = Some t /\ valid t = false)
  /\ executed (worker 5 w2) = rev (m_tasks three_notes.1.2)
  /\ call_all (executed (worker 5 w2)) (three_notes.2, [])
     = completes ([ready_value 1; ready_value 2; ready_value 3], [3; 2; 1]).
Proof.
  intros w1 w2. split.
  - split; [reflexivity|].
    destruct (worker_loop 0 w1) as (_ & _ & _ & _ & _ & _ & _ & _ & _ & _ & Hstop).
    apply Hstop. reflexivity.
  - destruct (worker_loop 5 w2) as (_ & Hx & Hcalls & _ & Hfin & _).
    split; [reflexivity|]. split; [apply Hfin; reflexivity|].
    split; [rewrite Hx; reflexivity|].
    etransitivity; [exact Hcalls | reflexivity].
Defined.

(** * Further properties of the header *)

Section More.

Context {U V X : Type}.

Implicit Types (t : task U V X) (p : packaged_task U V X) (q : queue U V X).
Implicit Types (h : heap V X) (u : U) (e : event) (w : world U V X).
Implicit Types (ts : list (task U V X)) (os : list (op U V X)).

(** ** The queue hands every handle out once *)

Lemma getWork_open q t q' :
  m_stop q = false -> getWork q = Some (t, q') ->
  m_tasks q = m_tasks q' ++ [t] /\ m_stop q' = false.
Proof.
  destruct q as [ts b]. simpl. intros ->.
  destruct ts as [|t0 ts] using rev_ind; [done|].
  rewrite getWork_snoc. by intros [= <- <-].
Qed.

(** X1 — On a queue that stays open, the handles handed out together with the
    handles still queued are, up to order, the handles the queue held at the
    start together with the handles added: none is lost, none is handed out
    twice. *)
Theorem queue_conserves_handles os : forall q,
  m_stop q = false ->
  existsb is_stop os = false ->
  (run_ops q os).2 ++ m_tasks (run_ops q os).1 ≡ₚ m_tasks q ++ added os.
Proof.
  induction os as [|o os IH]; intros q Hs Hos; simpl.
  - by rewrite app_nil_r.
  - destruct o as [t| |]; simpl in Hos; [| |done].
    + cbn [apply_op]. specialize (IH (addWork t q) Hs Hos).
      destruct (run_ops (addWork t q) os) as [q2 rs]. cbn [fst snd] in *.
      rewrite IH, addWork_tasks, <- app_assoc. done.
    + cbn [apply_op]. destruct (getWork q) as [[t q']|] eqn:Hg.
      * destruct (getWork_open q t q' Hs Hg) as [Ht Hs'].
        specialize (IH q' Hs' Hos).
        destruct (run_ops q' os) as [q2 rs]. cbn [fst snd] in *.
        rewrite Ht. simpl. rewrite IH.
        rewrite <- app_assoc. simpl. by rewrite Permutation_middle.
      * specialize (IH q Hs Hos).
        by destruct (run_ops q os) as [q2 rs].
Qed.

(** ** Results are written once *)

(** X2 — Along a run of the worker, a shared state that is ready after some
    number of turns, with a value or with an exception, holds that same
    content after every further turn and when the run ends: what a task has
    stored is not overwritten by the tasks the worker calls later nor by the
    destruction of their handles. *)
Theorem worker_writes_once m k : forall w i (s : slot V X),
  w_heap (final (worker m w)) !! i = Some s ->
  s <> pending ->
  w_heap (final (worker (m + k) w)) !! i = Some s.
Proof.
  induction m as [|m IH]; intros w i s; simpl.
  - apply worker_evolves.
  - destruct (getWork (w_queue w)) as [[t q']|]; [|done].
    destruct (valid t); simpl; [|done].
    unfold task_call.
    destruct (execute t (w_heap w, w_user w)) as [[h' u']| |]; simpl; try done.
    apply IH.
Qed.

(** ** A call touches its own result only *)

(** X3 — Executing a handle changes nothing for an event on another shared
    state: [get], [wait] and [ready] on it answer as before. *)
Theorem execute_is_local t e h u h' u' :
  execute t (h, u) = completes (h', u') ->
  paired t e = false ->
  get e h' = get e h /\ wait e h' = wait e h /\ ready e h' = ready e h.
Proof.
  intros (p & id & Hc & Hp & Hid & [= -> ->])%execute_completes Hne.
  simpl in *.
  assert (forall j, m_future e = Some j -> (<[id := store (stored p u).1]> h) !! j = h !! j)
    as Hsame.
  { intros j Hj. apply list_lookup_insert_ne. intros ->.
    unfold paired, state_of in Hne. rewrite Hc, Hp, Hj in Hne.
    by rewrite Nat.eqb_refl in Hne. }
  unfold wait, get, ready, future_get, future_is_ready.
  destruct (m_future e) as [j|]; [|done].
  by rewrite (Hsame j eq_refl).
Qed.

(** ** A callable runs at most once *)

(** X4 — [execute] completes only on a handle that owns an unexecuted
    callable, and from then on, in every later heap, a further [execute] on
    that handle throws [future_error(promise_already_satisfied)]: the callable
    is not run a second time. *)
Theorem executes_at_most_once t (s s' : heap V X * U) :
  execute t s = completes s' ->
  owns_unexecuted t s.1 = true
  /\ forall h'' u'', evolves s'.1 h'' ->
       execute t (h'', u'') = propagates (future_error promise_already_satisfied).
Proof.
  intros (p & id & Hc & Hp & Hid & ->)%execute_completes.
  assert (state_of t = Some id) as Hst by (unfold state_of; by rewrite Hc).
  split.
  - unfold owns_unexecuted. rewrite Hst. by apply is_pending_lookup.
  - intros h'' u'' Hev.
    apply (execute_ready t id (store (stored p s.2).1)); [done| |apply store_ready].
    apply Hev; [|apply store_ready]. simpl.
    apply list_lookup_insert_eq. by eapply lookup_lt_Some.
Qed.

(** ** Reading an event uses it up *)

(** X5 — A [get] that would sleep leaves the event as it is. A [get] that
    returns a value or rethrows an exception leaves the event without shared
    state: every further [get], [wait] or [ready] on it is undefined
    behaviour, whatever the heap. *)
Theorem get_consumes_event e h :
  ((get e h).1 = would_block -> (get e h).2 = e)
  /\ (forall c, (get e h).1 = got c -> c <> undefined ->
        forall h', (get (get e h).2 h').1 = got undefined
                   /\ (wait (get e h).2 h').1 = got undefined
                   /\ ready (get e h).2 h' = undefined).
Proof.
  unfold wait, get, ready, future_get, future_is_ready.
  destruct e as [[id|]]; simpl.
  - destruct (h !! id) as [[]|]; simpl; split; try done.
    intros c [= <-] Hc. done.
  - split; [done|]. intros c [= <-] Hc. done.
Qed.

(** ** Polling *)

(** X6 — For a handle and an event on one shared state whose result is
    awaited: [ready] answers false; once the handle has been executed, or
    destroyed unexecuted, [ready] answers true, in that heap and in every
    later one. *)
Theorem ready_polls t e h :
  paired t e = true ->
  (get e h).1 = would_block ->
  ready e h = completes false
  /\ (forall u s' h'', execute t (h, u) = completes s' -> evolves s'.1 h'' ->
        ready e h'' = completes true)
  /\ (forall h'', evolves (task_destroy t h) h'' -> ready e h'' = completes true).
Proof.
  intros (id & Hst & He)%paired_states Hb.
  split; [by apply ready_would_block|].
  destruct (get_would_block _ _ Hb) as (id' & He' & Hid).
  assert (id' = id) as -> by congruence.
  assert (id < length h) as Hlt by (by eapply lookup_lt_Some).
  assert (forall (s : slot V X) h'', s <> pending -> h'' !! id = Some s ->
            ready e h'' = completes true) as Hready.
  { intros s h'' Hs Hl. unfold ready, future_is_ready. rewrite He, Hl.
    by destruct s. }
  split.
  - intros u s' h'' (p & id2 & Hc & Hp & _ & ->)%execute_completes Hev.
    assert (id2 = id) as ->.
    { unfold state_of in Hst. rewrite Hc, Hp in Hst. congruence. }
    apply (Hready (store (stored p u).1)); [apply store_ready|].
    apply Hev; [|apply store_ready]. simpl. by apply list_lookup_insert_eq.
  - intros h'' Hev.
    apply (Hready (ready_exception (future_error broken_promise))); [done|].
    apply Hev; [|done]. rewrite (task_destroy_pending t id h Hst Hid).
    by apply list_lookup_insert_eq.
Qed.

(** ** Moving events and handles *)

Lemma abandoned_result_states t e h h' :
  paired t e = true ->
  (get e h).1 = would_block ->
  evolves (task_destroy t h) h' ->
  (get e h').1 = got (propagates (future_error broken_promise)).
Proof.
  intros (id & Hst & He)%paired_states (id' & He' & Hid)%get_would_block Hev.
  assert (id' = id) as -> by congruence.
  rewrite (get_exception e id (future_error broken_promise) h'); [done..|].
  apply Hev; [|done]. rewrite (task_destroy_pending t id h Hst Hid).
  apply list_lookup_insert_eq. by eapply lookup_lt_Some.
Qed.

(** X8 — Move assignment from another handle onto a handle that owns an
    unexecuted callable abandons that callable: the handle takes over what the
    source owned, the source is left empty, and the event of the overwritten
    task throws [future_error(broken_promise)] from then on.  (The source is
    not the owner of that same task: assigning a handle to itself is not
    covered.) *)
Theorem task_assign_abandons (lhs rhs : task U V X) e h :
  paired lhs e = true ->
  paired rhs e = false ->
  (get e h).1 = would_block ->
  (task_assign lhs rhs h).1.1 = rhs
  /\ valid (task_assign lhs rhs h).1.2 = false
  /\ forall h'', evolves (task_assign lhs rhs h).2 h'' ->
       (get e h'').1 = got (propagates (future_error broken_promise)).
Proof.
  intros Hp _ Hb. split; [by destruct rhs|]. split; [done|].
  intros h'' Hev. simpl in Hev.
  exact (abandoned_result_states lhs e h h'' Hp Hb Hev).
Qed.

(** ** Submissions do not disturb each other *)

Lemma owns_unexecuted_lt t h :
  owns_unexecuted t h = true ->
  exists id, state_of t = Some id /\ h !! id = Some pending /\ id < length h.
Proof.
  unfold owns_unexecuted. destruct (state_of t) as [id|]; [|done].
  intros Hid%is_pending_lookup. exists id.
  split; [done|]. split; [done|]. by eapply lookup_lt_Some.
Qed.

Lemma runnable_other_insert ts h id (s : slot V X) :
  Forall (fun t => owns_unexecuted t h = true) ts ->
  Some id ∉ state_of <$> ts ->
  Forall (fun t => owns_unexecuted t (<[id := s]> h) = true) ts.
Proof.
  intros Hall Hnot. apply Forall_forall. intros t Hin.
  rewrite Forall_forall in Hall. specialize (Hall t Hin).
  destruct (owns_unexecuted_lt t h Hall) as (i & Hi & _ & _).
  rewrite (owns_unexecuted_insert t h id i s Hi); [done|].
  intros ->. apply Hnot. rewrite <- Hi. by apply list_elem_of_fmap_2.
Qed.

Lemma runnable_snoc_insert ts t h id (s : slot V X) :
  runnable h (ts ++ [t]) = true -> state_of t = Some id ->
  runnable (<[id := s]> h) ts = true.
Proof.
  intros [Hall Hnd]%runnable_spec Hst. apply runnable_spec.
  apply Forall_app in Hall as [Hall _].
  rewrite fmap_app in Hnd. apply NoDup_app in Hnd as (Hnd & Hdis & _).
  split; [|done]. apply runnable_other_insert; [done|].
  intros Hin. apply (Hdis _ Hin). rewrite list_fmap_singleton, Hst.
  by apply list_elem_of_singleton.
Qed.

Lemma createF_runnable {A : Type} q h (f : A -> callable U V X) (args : A) e q1 h1 :
  createF q h f args = (e, q1, h1) ->
  runnable h (m_tasks q) = true -> runnable h1 (m_tasks q1) = true.
Proof.
  rewrite createF_eq. intros [= <- <- <-] [Hall Hnd]%runnable_spec.
  rewrite addWork_tasks. apply runnable_spec. split.
  - apply Forall_app. split.
    + apply Forall_forall. intros t Hin.
      rewrite Forall_forall in Hall.
      destruct (owns_unexecuted_lt t h (Hall t Hin)) as (i & Hi & Hp & _).
      unfold owns_unexecuted. rewrite Hi. apply is_pending_lookup.
      by apply lookup_app_l_Some.
    + apply Forall_cons. split; [|constructor].
      unfold owns_unexecuted. simpl. apply is_pending_lookup.
      by rewrite list_lookup_middle.
  - rewrite fmap_app. apply NoDup_app. split; [done|]. split.
    + intros x Hx. rewrite list_fmap_singleton, list_elem_of_singleton.
      intros ->. apply list_elem_of_fmap in Hx as (t & Hst & Hin).
      rewrite Forall_forall in Hall.
      destruct (owns_unexecuted_lt t h (Hall t Hin)) as (i & Hi & _ & Hlt).
      simpl in Hst. rewrite Hi in Hst. injection Hst as <-. lia.
    + rewrite list_fmap_singleton. apply NoDup_singleton.
Qed.

(** X9 — [createF] appends exactly one handle and leaves the stop flag alone;
    a runnable queue stays runnable, so the new shared state is one that no
    queued handle owns; and every event that could be read before the
    submission reads and polls the same after it. *)
Theorem createF_noninterference {A : Type} q h (f : A -> callable U V X) (args : A)
  e q1 h1 :
  createF q h f args = (e, q1, h1) ->
  m_tasks q1 = m_tasks q ++ [back (m_tasks q1)]
  /\ m_stop q1 = m_stop q
  /\ (runnable h (m_tasks q) = true -> runnable h1 (m_tasks q1) = true)
  /\ (forall e', (get e' h).1 <> got undefined ->
        get e' h1 = get e' h /\ ready e' h1 = ready e' h).
Proof.
  intros Hc. split; [|split; [|split]].
  - rewrite createF_eq in Hc. injection Hc as <- <- <-.
    by rewrite back_addWork, addWork_tasks.
  - rewrite createF_eq in Hc. by injection Hc as <- <- <-.
  - by apply (createF_runnable q h f args e).
  - rewrite createF_eq in Hc. injection Hc as <- <- <-. intros e' Hdef.
    unfold get, ready, future_get, future_is_ready in *.
    destruct (m_future e') as [j|]; [|done].
    destruct (h !! j) as [s|] eqn:Hj; [|done].
    by rewrite (lookup_app_l_Some h [pending] j s Hj).
Qed.

Lemma submit_then_worker {A : Type} q h (f : A -> callable U V X) (args : A)
  e q1 h1 u n :
  m_stop q = false ->
  runnable h (m_tasks q) = true ->
  createF q h f args = (e, q1, h1) ->
  length (m_tasks q1) < n ->
  let r := worker n {| w_queue := q1; w_heap := h1; w_user := u |} in
  ended r = sleeping
  /\ executed r = back (m_tasks q1) :: rev (m_tasks q)
  /\ (get e (w_heap (final r))).1
     = got (match (f args u).1 with
            | returns v => completes v
            | throws x => propagates x
            end).
Proof.
  intros Hs Hr Hc Hn r.
  pose proof (createF_runnable q h f args e q1 h1 Hc Hr) as Hr1.
  destruct (createF_paired q h f args e q1 h1 Hc) as (Hp & Hcont & _ & _).
  rewrite createF_eq in Hc. injection Hc as <- <- <-.
  rewrite back_addWork in *. rewrite addWork_tasks in Hr1, Hn.
  assert (addWork {| content := Some {| stored := f args; pt_state := Some (length h) |} |} q
          = {| m_tasks := m_tasks q
                 ++ [{| content := Some {| stored := f args; pt_state := Some (length h) |} |}];
               m_stop := false |}) as Hq.
  { destruct q as [ts b]. simpl in Hs. subst b. unfold addWork. by cbn. }
  subst r. rewrite Hq.
  destruct (worker_drains _ (h ++ [pending]) u n Hr1 Hn) as (He & Hx & _).
  split; [done|]. split; [by rewrite Hx, rev_unit|].
  destruct n as [|n]; [lia|].
  set (p := {| stored := f args; pt_state := Some (length h) |}) in *.
  rewrite (worker_runs n {| w_queue := {| m_tasks := m_tasks q ++ [{| content := Some p |}];
                                          m_stop := false |};
                            w_heap := h ++ [pending]; w_user := u |}
             {| content := Some p |} _ p (length h)
             (getWork_snoc _ _) eq_refl eq_refl).
  2:{ simpl. by rewrite list_lookup_middle. }
  cbn [ran final stored w_heap w_user p].
  apply (get_store _ (length h)); [done|].
  apply worker_evolves; [|apply store_ready]. simpl.
  apply list_lookup_insert_eq. rewrite length_app. simpl. lia.
Qed.

(** X10 — Submit, then let one worker run: on an open runnable queue the task
    just submitted is the first one the worker calls, in the host state the
    worker starts from; the worker ends asleep on the drained queue; and the
    event then yields what that call returned, or rethrows what it threw. *)
Theorem createF_then_worker {A : Type} q h (f : A -> callable U V X) (args : A)
  e q1 h1 u n :
  m_stop q = false ->
  runnable h (m_tasks q) = true ->
  createF q h f args = (e, q1, h1) ->
  length (m_tasks q1) < n ->
  let r := worker n {| w_queue := q1; w_heap := h1; w_user := u |} in
  ended r = sleeping
  /\ executed r = back (m_tasks q1) :: rev (m_tasks q)
  /\ (get e (w_heap (final r))).1
     = got (match (f args u).1 with
            | returns v => completes v
            | throws x => propagates x
            end).
Proof. apply submit_then_worker. Qed.

(** X11 — The same for a member function: the call is bound to the object [c]
    by reference, so what the event yields is what the member function does on
    the object as the host state has it when the worker runs the task, not as
    it was when the task was submitted. *)
Theorem createM_then_worker {C A : Type} q h (g : C -> A -> callable U V X)
  (c : C) (args : A) e q1 h1 u n :
  m_stop q = false ->
  runnable h (m_tasks q) = true ->
  createM q h g c args = (e, q1, h1) ->
  length (m_tasks q1) < n ->
  let r := worker n {| w_queue := q1; w_heap := h1; w_user := u |} in
  ended r = sleeping
  /\ executed r = back (m_tasks q1) :: rev (m_tasks q)
  /\ (get e (w_heap (final r))).1
     = got (match (g c args u).1 with
            | returns v => completes v
            | throws x => propagates x
            end).
Proof.
  intros Hs Hr Hc Hn. by apply (submit_then_worker q h (g c) args e q1 h1 u n).
Qed.

(** ** What ends the loop *)

Lemma getWork_None q : getWork q = None <-> m_stop q = false /\ m_tasks q = [].
Proof.
  destruct q as [ts [|]]; simpl.
  - split; [done | by intros [? _]].
  - destruct ts as [|t0 ts] using rev_ind; [done|].
    rewrite getWork_snoc. split; [done|]. intros [_ Hn].
    by destruct ts.
Qed.

Lemma ran_all_ended (r : run U V X) ts : ended (fold_right ran r ts) = ended r.
Proof. induction ts as [|t ts IH]; [done|]. simpl. apply IH. Qed.

Lemma ran_all_final (r : run U V X) ts : final (fold_right ran r ts) = final r.
Proof. induction ts as [|t ts IH]; [done|]. simpl. apply IH. Qed.

Lemma ran_all_executed (r : run U V X) ts :
  executed (fold_right ran r ts) = ts ++ executed r.
Proof. induction ts as [|t ts IH]; [done|]. simpl. by rewrite IH. Qed.

(** The runnable handles on top of an open queue are called newest first;
    then the loop goes on with what lies below them. *)
Lemma worker_prefix ts : forall h u,
  runnable h ts = true ->
  exists h' u',
    length h' = length h
    /\ forall k base,
         worker (length ts + k)
           {| w_queue := {| m_tasks := base ++ ts; m_stop := false |};
              w_heap := h; w_user := u |}
         = fold_right ran
             (worker k {| w_queue := {| m_tasks := base; m_stop := false |};
                          w_heap := h'; w_user := u' |})
             (rev ts).
Proof.
  induction ts as [|t ts IH] using rev_ind; intros h u Hr.
  - exists h, u. split; [done|]. intros k base. by rewrite app_nil_r.
  - pose proof Hr as [Hall Hnd]%runnable_spec.
    apply Forall_app in Hall as [_ Ht]. apply Forall_cons in Ht as [Ht _].
    destruct (owns_unexecuted_lt t h Ht) as (id & Hst & Hid & _).
    pose proof Hst as Hp. unfold state_of in Hp.
    destruct (content t) as [p|] eqn:Hc; [|done].
    destruct (IH (<[id := store (stored p u).1]> h) (stored p u).2
                (runnable_snoc_insert ts t h id _ Hr Hst)) as (h' & u' & Hlen & Hrun).
    exists h', u'. split; [by rewrite Hlen, length_insert|].
    intros k base. rewrite length_app, rev_unit. simpl.
    replace (length ts + 1 + k) with (S (length ts + k)) by lia.
    rewrite (worker_runs (length ts + k)
               {| w_queue := {| m_tasks := base ++ ts ++ [t]; m_stop := false |};
                  w_heap := h; w_user := u |}
               t {| m_tasks := base ++ ts; m_stop := false |} p id).
    + cbn [w_heap w_user]. by rewrite Hrun.
    + cbn [w_queue]. rewrite app_assoc. apply getWork_snoc.
    + done.
    + done.
    + done.
Qed.

(** X12 — An empty handle on an open queue ends the worker that reaches it:
    the runnable handles added after it are called, newest first, the loop is
    left by [break], and the handles added before it stay queued, uncalled, on
    a queue that is still open. *)
Theorem empty_handle_ends_worker ts base h u n :
  runnable h ts = true ->
  length ts < n ->
  let r := worker n {| w_queue := {| m_tasks := base ++ task_default :: ts;
                                     m_stop := false |};
                        w_heap := h; w_user := u |} in
  ended r = finished
  /\ executed r = rev ts
  /\ w_queue (final r) = {| m_tasks := base; m_stop := false |}.
Proof.
  intros Hr Hn r. subst r.
  destruct (worker_prefix ts h u Hr) as (h' & u' & _ & Hrun).
  replace n with (length ts + S (n - length ts - 1)) by lia.
  replace (base ++ task_default :: ts) with ((base ++ [task_default]) ++ ts)
    by (by rewrite <- app_assoc).
  rewrite Hrun, ran_all_ended, ran_all_executed, ran_all_final.
  simpl. rewrite getWork_snoc. simpl. by rewrite app_nil_r.
Qed.

(** X13 — A handle whose callable has been executed and that is added to an
    open queue again makes the worker's call throw
    [future_error(promise_already_satisfied)] out of the loop: the callable is
    not run again, heap and host state are as before, and the handles below
    stay queued. *)
Theorem stale_handle_escapes_worker t q (s : heap V X * U) h u n :
  execute t s = completes (h, u) ->
  m_stop q = false ->
  worker (S n) {| w_queue := addWork t q; w_heap := h; w_user := u |}
  = {| ended := escaped (future_error promise_already_satisfied);
       taken := [t]; executed := [t];
       final := {| w_queue := q; w_heap := h; w_user := u |} |}.
Proof.
  intros Hex Hs.
  destruct (execute_completes t s (h, u) Hex) as (p & id & Hc & Hp & Hid & Heq).
  assert (state_of t = Some id) as Hst by (unfold state_of; by rewrite Hc).
  assert (execute t (h, u) = propagates (future_error promise_already_satisfied))
    as Hagain.
  { apply (execute_ready t id (store (stored p s.2).1)); [done| |apply store_ready].
    injection Heq as -> _. apply list_lookup_insert_eq. by eapply lookup_lt_Some. }
  simpl. rewrite (getWork_addWork t q Hs), (valid_state_of t id Hst). simpl.
  unfold task_call. by rewrite Hagain.
Qed.

(** X14 — A worker is only ever left asleep on a queue that is open and empty,
    and [stop] on that queue lets it leave at once: it gets the empty handle,
    calls nothing and changes nothing. *)
Theorem worker_sleeps_only_when_drained n : forall w,
  ended (worker n w) = sleeping ->
  m_stop (w_queue (final (worker n w))) = false
  /\ m_tasks (w_queue (final (worker n w))) = []
  /\ forall k,
       worker (S k) {| w_queue := stop (w_queue (final (worker n w)));
                       w_heap := w_heap (final (worker n w));
                       w_user := w_user (final (worker n w)) |}
       = {| ended := finished; taken := [task_default]; executed := [];
            final := {| w_queue := stop (w_queue (final (worker n w)));
                        w_heap := w_heap (final (worker n w));
                        w_user := w_user (final (worker n w)) |} |}.
Proof.
  intros w Hsl.
  assert (getWork (w_queue (final (worker n w))) = None) as Hg.
  { revert w Hsl. induction n as [|n IH]; intros w; simpl; [done|].
    destruct (getWork (w_queue w)) as [[t q']|] eqn:Hg; [|done].
    destruct (valid t); simpl; [|done].
    unfold task_call.
    destruct (execute t (w_heap w, w_user w)) as [[h' u']| |]; simpl; try done.
    apply IH. }
  apply getWork_None in Hg as [Hs Ht]. split; [done|]. split; [done|].
  intros k. by apply worker_stopped.
Qed.

(** ** Tearing the queue down *)

Lemma destroy_all_evolves ts : forall h,
  evolves h (fold_left (fun h' t => task_destroy t h') ts h).
Proof.
  induction ts as [|t ts IH]; intros h; simpl; [apply evolves_refl|].
  exact (evolves_trans _ _ _ (task_destroy_evolves t h) (IH (task_destroy t h))).
Qed.

(** X15 — Destroying a queue of runnable handles abandons every one of them:
    the event of any queued task throws [future_error(broken_promise)] instead
    of sleeping for ever. *)
Theorem queue_destroy_abandons q h i t e :
  runnable h (m_tasks q) = true ->
  m_tasks q !! i = Some t ->
  paired t e = true ->
  (get e (queue_destroy q h)).1 = got (propagates (future_error broken_promise)).
Proof.
  unfold queue_destroy. generalize (m_tasks q). clear q.
  intros ts. revert h i. induction ts as [|t0 ts IH]; intros h i Hr Hi Hp; [done|].
  pose proof Hr as [Hall Hnd]%runnable_spec.
  apply Forall_cons in Hall as [Ht0 Hall].
  rewrite fmap_cons in Hnd. apply NoDup_cons in Hnd as [Hnot Hnd].
  destruct (owns_unexecuted_lt t0 h Ht0) as (id0 & Hst0 & Hid0 & _).
  simpl. destruct i as [|i]; simpl in Hi.
  - injection Hi as ->.
    apply (abandoned_result_states t e h); [done| |apply destroy_all_evolves].
    destruct (paired_states t e Hp) as (id & Hst & He).
    assert (id = id0) as -> by congruence.
    unfold get, future_get. by rewrite He, Hid0.
  - apply (IH _ i); [|done|done].
    rewrite (task_destroy_pending t0 id0 h Hst0 Hid0).
    apply runnable_spec. split; [|done].
    apply runnable_other_insert; [done|]. by rewrite <- Hst0.
Qed.

End More.

(** * The further properties on the sample callables *)

Lemma queue_conserves_handles_witness :
  let os := [op_addWork sample_task; op_addWork task_default; op_getWork;
             op_addWork sample_task] in
  (run_ops queue_new os).2 ++ m_tasks (run_ops queue_new os).1
  ≡ₚ m_tasks queue_new ++ added os.
Proof.
  intros os. apply (queue_conserves_handles os queue_new); reflexivity.
Defined.

Lemma worker_writes_once_witness :
  let w := {| w_queue := three_notes.1.2; w_heap := three_notes.2;
              w_user := ([] : log) |} in
  w_heap w !! 2 = Some pending
  /\ w_heap (final (worker 1 w)) !! 2 = Some (ready_value 3)
  /\ w_heap (final (worker (1 + 3) w)) !! 2 = Some (ready_value 3).
Proof.
  intros w. split; [reflexivity|]. split; [reflexivity|].
  apply (worker_writes_once 1 3 w 2 (ready_value 3)).
  - reflexivity.
  - discriminate.
Defined.

Lemma execute_is_local_witness :
  let e := {| m_future := Some 1 |} in
  let h : heap nat nat := [pending; pending] in
  let h' : heap nat nat := [ready_value 9; pending] in
  execute sample_task (h, []) = completes (h', [])
  /\ paired sample_task e = false
  /\ get e h' = get e h /\ wait e h' = wait e h /\ ready e h' = ready e h.
Proof.
  intros e h h'. split; [reflexivity|]. split; [reflexivity|].
  apply (execute_is_local sample_task e h [] h' []); reflexivity.
Defined.

Lemma executes_at_most_once_witness :
  execute sample_task (sample_heap, []) = completes ([ready_value 9], [])
  /\ owns_unexecuted sample_task sample_heap = true
  /\ execute sample_task ([ready_value 9; pending], [3])
     = propagates (future_error promise_already_satisfied).
Proof.
  split; [reflexivity|].
  destruct (executes_at_most_once sample_task (sample_heap, [])
              ([ready_value 9], []) eq_refl) as [Hown Hagain].
  split; [exact Hown|].
  apply (Hagain [ready_value 9; pending] [3]).
  intros i s Hi _. destruct i as [|i]; [exact Hi | destruct i; discriminate Hi].
Defined.

Lemma get_consumes_event_witness :
  let h : heap nat nat := [ready_value 9] in
  (get sample_event h).1 = got (completes 9)
  /\ (get (get sample_event h).2 h).1 = got undefined
  /\ (wait (get sample_event h).2 h).1 = got undefined
  /\ ready (get sample_event h).2 h = undefined.
Proof.
  intros h. split; [reflexivity|].
  apply (proj2 (get_consumes_event sample_event h) (completes 9)).
  - reflexivity.
  - discriminate.
Defined.

Lemma ready_polls_witness :
  let h' : heap nat nat := [ready_value 9] in
  paired sample_task sample_event = true
  /\ (get sample_event sample_heap).1 = would_block
  /\ ready sample_event sample_heap = completes false
  /\ ready sample_event h' = completes true
  /\ ready sample_event (task_destroy sample_task sample_heap) = completes true.
Proof.
  intros h'. split; [reflexivity|]. split; [reflexivity|].
  destruct (ready_polls sample_task sample_event sample_heap eq_refl eq_refl)
    as (Hbefore & Hrun & Hdrop).
  split; [exact Hbefore|]. split.
  - apply (Hrun [] (h', []) h' eq_refl).
    intros i s Hi _. exact Hi.
  - apply Hdrop. intros i s Hi _. exact Hi.
Defined.

Lemma task_assign_abandons_witness :
  let rhs := {| content := Some {| stored := note 1; pt_state := Some 1 |} |} in
  let h : heap nat nat := [pending; pending] in
  paired sample_task sample_event = true
  /\ paired rhs sample_event = false
  /\ (get sample_event h).1 = would_block
  /\ (task_assign sample_task rhs h).1.1 = rhs
  /\ (get sample_event (task_assign sample_task rhs h).2).1
     = got (propagates (future_error broken_promise)).
Proof.
  intros rhs h. split; [reflexivity|]. split; [reflexivity|]. split; [reflexivity|].
  destruct (task_assign_abandons sample_task rhs sample_event h
              eq_refl eq_refl eq_refl) as (Htake & _ & Hget).
  split; [exact Htake|]. apply Hget. intros i s Hi _. exact Hi.
Defined.

Lemma createF_noninterference_witness :
  let r := createF sample_queue sample_heap note 1 in
  runnable sample_heap (m_tasks sample_queue) = true
  /\ runnable r.2 (m_tasks r.1.2) = true
  /\ get sample_event r.2 = get sample_event sample_heap.
Proof.
  intros r.
  destruct (createF_noninterference sample_queue sample_heap note 1
              r.1.1 r.1.2 r.2 eq_refl) as (_ & _ & Hrun & Hsame).
  split; [reflexivity|]. split; [exact (Hrun eq_refl)|].
  apply (Hsame sample_event). discriminate.
Defined.

Lemma createF_then_worker_witness :
  let s := createF sample_queue sample_heap note 1 in
  let r := worker 3 {| w_queue := s.1.2; w_heap := s.2; w_user := [] |} in
  ended r = sleeping
  /\ executed r = back (m_tasks s.1.2) :: rev (m_tasks sample_queue)
  /\ (get s.1.1 (w_heap (final r))).1 = got (completes 1).
Proof.
  intros s.
  apply (createF_then_worker sample_queue sample_heap note 1 s.1.1 s.1.2 s.2 [] 3).
  - reflexivity.
  - reflexivity.
  - reflexivity.
  - simpl. lia.
Defined.

Lemma createM_then_worker_witness :
  let s := createM queue_new [] bump 0 2 in
  let r := worker 2 {| w_queue := s.1.2; w_heap := s.2; w_user := [5] |} in
  ended r = sleeping
  /\ executed r = back (m_tasks s.1.2) :: rev (m_tasks queue_new)
  /\ (get s.1.1 (w_heap (final r))).1 = got (completes 7).
Proof.
  intros s.
  apply (createM_then_worker queue_new [] bump 0 2 s.1.1 s.1.2 s.2 [5] 2).
  - reflexivity.
  - reflexivity.
  - reflexivity.
  - simpl. lia.
Defined.

Lemma empty_handle_ends_worker_witness :
  let ts := m_tasks three_notes.1.2 in
  let r := worker 4 {| w_queue := {| m_tasks := [sample_task] ++ task_default :: ts;
                                     m_stop := false |};
                       w_heap := three_notes.2; w_user := ([] : log) |} in
  runnable three_notes.2 ts = true
  /\ ended r = finished
  /\ executed r = rev ts
  /\ w_queue (final r) = {| m_tasks := [sample_task]; m_stop := false |}.
Proof.
  intros ts. split; [reflexivity|].
  apply (empty_handle_ends_worker ts [sample_task] three_notes.2 [] 4).
  - reflexivity.
  - simpl. lia.
Defined.

Lemma stale_handle_escapes_worker_witness :
  execute sample_task (sample_heap, []) = completes ([ready_value 9], [])
  /\ worker 1 {| w_queue := addWork sample_task queue_new;
                 w_heap := [ready_value 9]; w_user := ([] : log) |}
     = {| ended := escaped (future_error promise_already_satisfied);
          taken := [sample_task]; executed := [sample_task];
          final := {| w_queue := queue_new; w_heap := [ready_value 9];
                      w_user := [] |} |}.
Proof.
  split; [reflexivity|].
  apply (stale_handle_escapes_worker sample_task queue_new (sample_heap, [])
           [ready_value 9] [] 0); reflexivity.
Defined.

Lemma worker_sleeps_only_when_drained_witness :
  let w := {| w_queue := three_notes.1.2; w_heap := three_notes.2;
              w_user := ([] : log) |} in
  ended (worker 4 w) = sleeping
  /\ m_stop (w_queue (final (worker 4 w))) = false
  /\ m_tasks (w_queue (final (worker 4 w))) = [].
Proof.
  intros w. split; [reflexivity|].
  destruct (worker_sleeps_only_when_drained 4 w eq_refl) as (Hopen & Hempty & _).
  split; [exact Hopen | exact Hempty].
Defined.

Lemma queue_destroy_abandons_witness :
  let t := {| content := Some {| stored := note 2; pt_state := Some 1 |} |} in
  runnable three_notes.2 (m_tasks three_notes.1.2) = true
  /\ m_tasks three_notes.1.2 !! 1 = Some t
  /\ (get {| m_future := Some 1 |} (queue_destroy three_notes.1.2 three_notes.2)).1
     = got (propagates (future_error broken_promise)).
Proof.
  intros t. split; [reflexivity|]. split; [reflexivity|].
  apply (queue_destroy_abandons three_notes.1.2 three_notes.2 1 t
           {| m_future := Some 1 |}); reflexivity.
Defined.
